(** * SSTV-MEL: image-comparison scripts and the decoder they debug

    The repository holds the analysis scripts of an SSTV (slow-scan
    television) decoder: [analyze_freq.py], [scripts/compare_images.py],
    [scripts/compare_aligned.py], [scripts/analyze_color.py] and
    [visual_comparison.py].  They load a decoded image and a reference image
    as NumPy arrays and print statistics about their differences.

    Part I holds the definitions: the NumPy values and arrays, the array
    computations of the scripts, and a model of the decoder pipeline the
    scripts are written for (mode table, line decoder, frame assembler,
    decode session).  That decoder is not among the source files; each
    definition of module [Decoder] is written from its design description
    and says which section it follows.  Part II holds the properties.

    Conventions.
    - A [uint8] value is a [Z] in [0, 255]; arithmetic on two [uint8]
      scalars wraps modulo 256 and the wrap is written out.
    - A [float64] value is [np_float]: an exact rational, or an infinity, or
      NaN.  Rounding of the last bit is not modelled; where a script casts a
      float back to [uint8], the quantities are quotients of integers below
      2^16 and the cast of the exact value is the cast NumPy computes.
    - A frequency in Hz is a rational.
    - An [H x W x 3] array is a list of rows, a row a list of pixels, a pixel
      a triple of channel values. *)

From Stdlib Require Import ZArith QArith Qround Qabs List Lia Lqa Bool.
From stdpp Require Import gmap strings list fin_maps.
Import ListNotations.
Local Open Scope Z_scope.

(* ===================================================================== *)
(** * Part I.  Definitions                                                *)
(* ===================================================================== *)

(** ** Scalars *)

(** Python's [round] and NumPy's [np.round]: to the nearest integer, a tie
    going to the even neighbour. *)
Definition round_half_even (x : Q) : Z :=
  let f := Qfloor x in
  match (x - inject_Z f ?= 1 # 2)%Q with
  | Lt => f
  | Gt => f + 1
  | Eq => if Z.even f then f else f + 1
  end.

(** [clamp(v, lo, hi)] on integers. *)
Definition clamp (v lo hi : Z) : Z := Z.min (Z.max v lo) hi.

(** [clamp(v, lo, hi)] on rationals: [min(max(v, lo), hi)]. *)
Definition Qclamp (v lo hi : Q) : Q :=
  let u := if Qle_bool lo v then v else lo in
  if Qle_bool u hi then u else hi.

(** [uint8 - uint8] on NumPy scalars: the difference modulo 256. *)
Definition uint8_sub (a b : Z) : Z := (a - b) mod 256.

Definition is_uint8 (v : Z) : bool := (0 <=? v) && (v <=? 255).

(** ** NumPy values and arrays *)

Module NumPy.

(** A [float64]: a rational, or one of the three non-finite values.  Zero has
    no sign here (the scripts never produce a negative zero), and no
    operation of the scripts leaves the exponent range. *)
Inductive np_float := Finite (q : Q) | PosInf | NegInf | NaN.

Definition of_uint8 (v : Z) : np_float := Finite (inject_Z v).

Definition fneg (a : np_float) : np_float :=
  match a with
  | Finite x => Finite (- x)
  | PosInf => NegInf
  | NegInf => PosInf
  | NaN => NaN
  end.

Definition fadd (a b : np_float) : np_float :=
  match a, b with
  | Finite x, Finite y => Finite (x + y)
  | NaN, _ | _, NaN => NaN
  | PosInf, NegInf | NegInf, PosInf => NaN
  | PosInf, _ | _, PosInf => PosInf
  | NegInf, _ | _, NegInf => NegInf
  end.

Definition fsub (a b : np_float) : np_float := fadd a (fneg b).

(** The infinity with the sign of [c]; [NaN] for [c = Eq] (zero times
    infinity, zero over zero). *)
Definition signed_inf (c : comparison) : np_float :=
  match c with Gt => PosInf | Lt => NegInf | Eq => NaN end.

Definition fsign (a : np_float) : option comparison :=
  match a with
  | Finite x => Some (x ?= 0)%Q
  | PosInf => Some Gt
  | NegInf => Some Lt
  | NaN => None
  end.

Definition sign_mul (c d : comparison) : comparison :=
  match c, d with
  | Eq, _ | _, Eq => Eq
  | Gt, Gt | Lt, Lt => Gt
  | _, _ => Lt
  end.

Definition fmul (a b : np_float) : np_float :=
  match a, b with
  | Finite x, Finite y => Finite (x * y)
  | _, _ =>
      match fsign a, fsign b with
      | Some c, Some d => signed_inf (sign_mul c d)
      | _, _ => NaN
      end
  end.

Definition fdiv (a b : np_float) : np_float :=
  match a, b with
  | Finite x, Finite y =>
      if Qeq_bool y 0 then signed_inf (x ?= 0)%Q else Finite (x / y)
  | NaN, _ | _, NaN => NaN
  | Finite _, _ => Finite 0
  | _, Finite y => signed_inf (sign_mul (default Eq (fsign a)) (if Qle_bool 0 y then Gt else Lt))
  | _, _ => NaN
  end.

Definition fabs (a : np_float) : np_float :=
  match a with
  | Finite x => Finite (Qabs x)
  | PosInf | NegInf => PosInf
  | NaN => NaN
  end.

(** [a > b]; false as soon as one side is [NaN]. *)
Definition fgt (a b : np_float) : bool :=
  match a, b with
  | NaN, _ | _, NaN => false
  | Finite x, Finite y => negb (Qle_bool x y)
  | PosInf, PosInf => false
  | PosInf, _ => true
  | _, PosInf => false
  | NegInf, _ => false
  | Finite _, NegInf => true
  end.

(** [a >= b]; false as soon as one side is [NaN]. *)
Definition fge (a b : np_float) : bool :=
  match a, b with
  | NaN, _ | _, NaN => false
  | Finite x, Finite y => Qle_bool y x
  | PosInf, _ => true
  | _, NegInf => true
  | _, _ => false
  end.

(** [np.clip(a, lo, hi)]: [minimum(maximum(a, lo), hi)]; [NaN] stays. *)
Definition np_clip (a : np_float) (lo hi : Q) : np_float :=
  match a with
  | Finite x => Finite (Qclamp x lo hi)
  | PosInf => Finite (Qclamp hi lo hi)
  | NegInf => Finite (Qclamp lo lo hi)
  | NaN => NaN
  end.

(** Truncation towards zero. *)
Definition Qtrunc (x : Q) : Z := if Qle_bool 0 x then Qfloor x else Qceiling x.

(** [a.astype(np.uint8)]: the fraction is dropped and the integer taken
    modulo 256; the cast of a non-finite value is undefined ([None]). *)
Definition astype_uint8 (a : np_float) : option Z :=
  match a with
  | Finite x => Some (Qtrunc x mod 256)
  | _ => None
  end.

(** An [H x W x 3] array: rows of pixels. *)
Definition pixel (A : Type) : Type := A * A * A.
Definition row (A : Type) : Type := list (pixel A).
Definition array3 (A : Type) : Type := list (row A).

Definition px_map {A B} (f : A -> B) (p : pixel A) : pixel B :=
  let '(r, g, b) := p in (f r, f g, f b).

Definition px_zip {A B C} (f : A -> B -> C) (p : pixel A) (q : pixel B) : pixel C :=
  let '(r, g, b) := p in let '(r', g', b') := q in (f r r', f g g', f b b').

Definition px_list {A} (p : pixel A) : list A := let '(r, g, b) := p in [r; g; b].

Definition amap {A B} (f : A -> B) (arr : array3 A) : array3 B :=
  map (map (px_map f)) arr.

(** [arr.shape] of a rectangular array: (rows, columns, 3). *)
Definition shape {A} (arr : array3 A) : nat * nat * nat :=
  (length arr, match arr with [] => 0%nat | r :: _ => length r end, 3%nat).

Definition rectangular {A} (arr : array3 A) : bool :=
  forallb (fun r => Nat.eqb (length r) (snd (fst (shape arr)))) arr.

Definition shape_eqb (s t : nat * nat * nat) : bool :=
  let '(a, b, c) := s in let '(a', b', c') := t in
  Nat.eqb a a' && Nat.eqb b b' && Nat.eqb c c'.

(** [row.flatten()] and [arr.flatten()]: the channel values in row-major
    order. *)
Definition flatten_row {A} (r : row A) : list A := flat_map px_list r.
Definition flatten {A} (arr : array3 A) : list A := flat_map flatten_row arr.

(** An elementwise binary operation on two arrays of one shape; [None] when
    the shapes differ. *)
Definition azip {A B C} (f : A -> B -> C) (a : array3 A) (b : array3 B)
  : option (array3 C) :=
  if shape_eqb (shape a) (shape b)
  then Some (zip_with (zip_with (px_zip f)) a b)
  else None.

(** [arr.min()] and [arr.max()] of a [uint8] array; [None] (a ValueError)
    on an array without elements. *)
Definition amin (arr : array3 Z) : option Z :=
  match flatten arr with
  | [] => None
  | x :: l => Some (fold_left Z.min l x)
  end.

Definition amax (arr : array3 Z) : option Z :=
  match flatten arr with
  | [] => None
  | x :: l => Some (fold_left Z.max l x)
  end.

Definition is_uint8_array (arr : array3 Z) : bool :=
  forallb is_uint8 (flatten arr).

(** [range(lo, hi)]. *)
Definition py_range (lo hi : Z) : list Z :=
  map (fun i => lo + Z.of_nat i) (seq 0 (Z.to_nat (hi - lo))).

End NumPy.

(** ** analyze_freq.py *)

Module AnalyzeFreq.
Import NumPy.

(** The observed linear relationship [expected = a * decoded + b]. *)
Definition a : Q := 74 # 100.
Definition b : Q := 28.

(** The mapping the decoded image went through, as the script records it:
    [pixel_value = ((freq - 1500) / 800) * 255]. *)
Definition pixel_value (freq : Q) : Q := ((freq - 1500) / 800 * 255)%Q.

(** The value printed for a decoded level: [a * decoded + b]. *)
Definition expected_should_be (decoded : Q) : Q := (a * decoded + b)%Q.

(** One element of
    [(dec_arr.astype(float) - dec_min) * (exp_max - exp_min)
       / (dec_max - dec_min) + exp_min];
    the four extremes are [uint8] scalars, so the two differences of
    extremes are [uint8] differences. *)
Definition rescale (dec_min dec_max exp_min exp_max : Z) (v : Z) : np_float :=
  fadd
    (fdiv
       (fmul (fsub (of_uint8 v) (of_uint8 dec_min))
             (of_uint8 (uint8_sub exp_max exp_min)))
       (of_uint8 (uint8_sub dec_max dec_min)))
    (of_uint8 exp_min).

(** [corrected] before the clip; [None] when [min()] or [max()] raises on an
    array without elements. *)
Definition corrected_float (dec_arr exp_arr : array3 Z) : option (array3 np_float) :=
  dec_min ← amin dec_arr;
  dec_max ← amax dec_arr;
  exp_min ← amin exp_arr;
  exp_max ← amax exp_arr;
  Some (amap (rescale dec_min dec_max exp_min exp_max) dec_arr).

(** [corrected = np.clip(corrected, 0, 255).astype(np.uint8)]. *)
Definition corrected (dec_arr exp_arr : array3 Z) : option (array3 (option Z)) :=
  amap (fun v => astype_uint8 (np_clip v 0 255)) <$> corrected_float dec_arr exp_arr.

(** Two small arrays for evaluating the rescale. *)
Definition demo_dec_arr : array3 Z := [[(10, 20, 30); (40, 50, 60)]].
Definition demo_exp_arr : array3 Z := [[(0, 100, 200); (5, 5, 5)]].

End AnalyzeFreq.

(** ** scripts/compare_images.py and scripts/compare_aligned.py

    The two scripts share the fragments embedded here line for line. *)

Module Compare.
Import NumPy.

(** A PIL image, given by its RGB content; [np.array(img.convert('RGB'))] is
    that content as an array of shape (height, width, 3). *)
Definition image : Type := array3 Z.

Definition np_array (img : image) : array3 Z := img.

(** [img.size]: (width, height). *)
Definition img_size (img : image) : nat * nat :=
  (snd (fst (shape img)), fst (fst (shape img))).

Section Scripts.

(** [Image.resize(size, Image.Resampling.LANCZOS)], PIL's resampling. *)
Variable resize : image -> nat * nat -> image.

(** [np.corrcoef(x, y)[0, 1]], NumPy's correlation coefficient. *)
Variable corrcoef : list Z -> list Z -> np_float.

(** The arrays bound to [dec_arr] and [exp_arr] after the resize step. *)
Definition load_arrays (decoded expected : image) : array3 Z * array3 Z :=
  let dec_arr := np_array decoded in
  let exp_arr := np_array expected in
  let exp_arr :=
    if negb (shape_eqb (shape dec_arr) (shape exp_arr))
    then np_array (resize expected (img_size decoded))
    else exp_arr in
  (dec_arr, exp_arr).

(** [diff = np.abs(dec_arr.astype(float) - exp_arr.astype(float))]. *)
Definition difference (dec_arr exp_arr : array3 Z) : option (array3 np_float) :=
  azip (fun d e => fabs (fsub (of_uint8 d) (of_uint8 e))) dec_arr exp_arr.

(** [np.clip(diff * 2, 0, 255).astype(np.uint8)], the pixels of [diff_img]. *)
Definition diff_img (diff : array3 np_float) : array3 (option Z) :=
  amap (fun v => astype_uint8 (np_clip (fmul v (Finite 2)) 0 255)) diff.

(** The variables of the script once [diff] is computed. *)
Record bindings := {
  dec_arr : array3 Z;
  exp_arr : array3 Z;
  diff : option (array3 np_float)
}.

Definition run (decoded expected : image) : bindings :=
  let '(d, e) := load_arrays decoded expected in
  {| dec_arr := d; exp_arr := e; diff := difference d e |}.

(** The two slices of one iteration of the shift loop. *)
Definition overlap (shift : Z) (dec_row exp_row : row Z) : row Z * row Z :=
  if 0 <=? shift then
    let d := drop (Z.to_nat shift) dec_row in
    let e := take (length d) exp_row in
    (d, e)
  else
    let e := drop (Z.to_nat (- shift)) exp_row in
    let d := take (length e) dec_row in
    (d, e).

(** [len(d) > min_len]: the shift takes part in the search. *)
Definition qualifies (min_len : nat) (dec_row exp_row : row Z) (shift : Z) : bool :=
  Nat.ltb min_len (length (fst (overlap shift dec_row exp_row))).

(** [np.corrcoef(d.flatten(), e.flatten())[0, 1]] for a shift. *)
Definition corr_at (dec_row exp_row : row Z) (shift : Z) : np_float :=
  let '(d, e) := overlap shift dec_row exp_row in
  corrcoef (flatten_row d) (flatten_row e).

(** One iteration: the pair (best shift, best correlation) is replaced when
    the overlap is longer than [min_len] and its correlation is greater than
    the best so far. *)
Definition shift_step (min_len : nat) (dec_row exp_row : row Z)
    (best : Z * np_float) (shift : Z) : Z * np_float :=
  if qualifies min_len dec_row exp_row shift then
    let corr := corr_at dec_row exp_row shift in
    if fgt corr (snd best) then (shift, corr) else best
  else best.

(** The loop [for shift in range(lo, hi)], started from
    [best_shift = 0], [best_corr = -1]. *)
Definition shift_search (lo hi : Z) (min_len : nat) (dec_row exp_row : row Z)
  : Z * np_float :=
  fold_left (shift_step min_len dec_row exp_row) (py_range lo hi) (0, Finite (-1)).

(** The horizontal search: [range(-100, 101)], overlaps longer than 100. *)
Definition horizontal_shift (dec_row exp_row : row Z) : Z * np_float :=
  shift_search (-100) 101 100 dec_row exp_row.

(** The vertical search: [range(-50, 51)], overlaps longer than 50. *)
Definition vertical_shift (dec_col exp_col : row Z) : Z * np_float :=
  shift_search (-50) 51 50 dec_col exp_col.

(** What the loop has established after the shifts [lo, lo + n): either the
    initial pair is still there and no shift that took part had a
    correlation above -1, or the pair is a shift that took part and its
    correlation, no shift that took part has a greater one, and every
    earlier one is not even equal to it. *)
Definition searched (min_len : nat) (dec_row exp_row : row Z)
    (lo : Z) (n : nat) (best : Z * np_float) : Prop :=
  (best = (0, Finite (-1)) /\
   forall s, lo <= s < lo + Z.of_nat n -> qualifies min_len dec_row exp_row s = true ->
             fgt (corr_at dec_row exp_row s) (Finite (-1)) = false)
  \/
  (lo <= fst best < lo + Z.of_nat n /\
   qualifies min_len dec_row exp_row (fst best) = true /\
   snd best = corr_at dec_row exp_row (fst best) /\
   fgt (snd best) (Finite (-1)) = true /\
   (forall s, lo <= s < lo + Z.of_nat n -> qualifies min_len dec_row exp_row s = true ->
              fgt (corr_at dec_row exp_row s) (snd best) = false) /\
   (forall s, lo <= s < fst best -> qualifies min_len dec_row exp_row s = true ->
              fge (corr_at dec_row exp_row s) (snd best) = false)).

(** The search as described for every pair of rows: the best shift is in
    range, the best correlation is the correlation at some shift that takes
    part and no such shift has a greater one, and the best shift is the
    smallest shift attaining it. *)
Definition reports_first_maximum (dec_row exp_row : row Z) : Prop :=
  let best_shift := fst (horizontal_shift dec_row exp_row) in
  let best_corr := snd (horizontal_shift dec_row exp_row) in
  -100 <= best_shift <= 100 /\
  (exists s, -100 <= s <= 100 /\ qualifies 100 dec_row exp_row s = true /\
             corr_at dec_row exp_row s = best_corr) /\
  (forall s, -100 <= s <= 100 -> qualifies 100 dec_row exp_row s = true ->
             fgt (corr_at dec_row exp_row s) best_corr = false) /\
  qualifies 100 dec_row exp_row best_shift = true /\
  corr_at dec_row exp_row best_shift = best_corr /\
  (forall s, -100 <= s < best_shift -> qualifies 100 dec_row exp_row s = true ->
             fge (corr_at dec_row exp_row s) best_corr = false).

(** [arr[row, :, :]] and [arr[:, col, :]]; [None] is an IndexError. *)
Definition row_at (arr : array3 Z) (r : nat) : option (row Z) := arr !! r.
Definition col_at (arr : array3 Z) (c : nat) : option (row Z) := mapM (fun r => r !! c) arr.

(** The printed horizontal result: row 100 of both arrays. *)
Definition best_horizontal (dec_arr exp_arr : array3 Z) : option (Z * np_float) :=
  dec_row ← row_at dec_arr 100;
  exp_row ← row_at exp_arr 100;
  Some (horizontal_shift dec_row exp_row).

End Scripts.

(** A reference [np.corrcoef(x, y)[0, 1]] for evaluating the loop on
    concrete rows: Pearson's coefficient
    [cov(x, y) / sqrt(var(x) * var(y))], [NaN] when a variance is zero, the
    square root taken to 30 fractional bits (exact on perfect squares) and
    the quotient clipped to [-1, 1] as NumPy does. *)
Definition sum_Z (l : list Z) : Z := fold_right Z.add 0 l.

Definition corrcoef_ref (x y : list Z) : np_float :=
  let n := Z.of_nat (length x) in
  let cxy := n * sum_Z (zip_with Z.mul x y) - sum_Z x * sum_Z y in
  let cxx := n * sum_Z (zip_with Z.mul x x) - sum_Z x * sum_Z x in
  let cyy := n * sum_Z (zip_with Z.mul y y) - sum_Z y * sum_Z y in
  if cxx * cyy =? 0 then NaN
  else
    let root := Z.sqrt (cxx * cyy * 4 ^ 30) in
    Finite (Qred (Qclamp (cxy * 2 ^ 30 # Z.to_pos root) (-1) 1)).

(** A nearest-neighbour [resize] for evaluating the scripts on concrete
    images: pixel (i, j) of the result is the source pixel at the scaled
    position, black when the source has none. *)
Definition resize_nearest (img : image) (sz : nat * nat) : image :=
  let '(w, h) := sz in
  let '(w0, h0) := img_size img in
  map (fun i =>
         map (fun j =>
                default (0, 0, 0)
                  (img !! (i * h0 / h)%nat ≫= fun r => r !! (j * w0 / w)%nat))
             (seq 0 w))
      (seq 0 h).

(** Two small images of different sizes for evaluating the resize step. *)
Definition demo_decoded : image := [[(10, 20, 30); (40, 50, 60); (70, 80, 90)]].
Definition demo_expected : image := [[(1, 2, 3)]; [(4, 5, 6)]].

(** Rows for evaluating the search: a black row as wide as a PD180 image
    (640 pixels), a rising grey ramp and a falling one (202 pixels). *)
Definition black_row : row Z := replicate 640 (0, 0, 0).

Definition rising_row : row Z :=
  map (fun i => let v := Z.of_nat i in (v, v, v)) (seq 0 202).

Definition falling_row : row Z :=
  map (fun i => let v := 255 - Z.of_nat i in (v, v, v)) (seq 0 202).

End Compare.

(** ** The decoder

    The decoder (Sync Detector, Mode Table, Line Decoder, Frame Assembler)
    is not among the source files of the repository.  Module [Decoder]
    models it from the spec; the Sync Detector itself, whose search the spec
    leaves open, appears only through what it reports. *)

Module Decoder.

(** Modelled from the spec: the channel identifiers of a ChannelSpec
    (section 3); the decoder's own type is missing from the sources. *)
Inductive ChannelId := ChY | ChCr | ChCb | ChR | ChG | ChB.

(** Modelled from the spec: the colour models of section 4.3; the decoder's
    own type is missing from the sources. *)
Inductive ColorModel := YCrCb | RGBSequential.

(** Modelled from the spec: the completeness flag of a ScanLine (section 3);
    the decoder's own type is missing from the sources. *)
Inductive Completeness := Complete | Partial | Missing.

(** Modelled from the spec: the ChannelSpec record of section 3, missing
    from the sources. *)
Record ChannelSpec := {
  channel_id : ChannelId;
  duration_samples : nat;
  offset_within_line_samples : nat
}.

(** Modelled from the spec: the ModeDescriptor record of section 3, missing
    from the sources.  The colour model (listed among the mode parameters in
    section 2) and the raster dimensions a Frame takes from its mode are
    carried here too. *)
Record ModeDescriptor := {
  name : string;
  line_duration_samples : nat;
  sync_pulse_duration_samples : nat;
  sync_frequency_hz : Q;
  channel_layout : list ChannelSpec;
  black_frequency_hz : Q;
  white_frequency_hz : Q;
  color_model : ColorModel;
  image_width : nat;
  image_height : nat
}.

(** Modelled from the spec: the frequency-to-intensity mapping of the Line
    Decoder (section 4.3), missing from the sources:
    [clamp(round((f - black) / (white - black) * 255), 0, 255)].
    The quotient is the rational one, [round] is Python's; the formula is
    meaningful when [black <> white]. *)
Definition freq_to_intensity (m : ModeDescriptor) (frequency_hz : Q) : Z :=
  clamp
    (round_half_even
       ((frequency_hz - black_frequency_hz m)
          / (white_frequency_hz m - black_frequency_hz m) * 255)%Q)
    0 255.

#[export] Instance ChannelId_eq_dec : EqDecision ChannelId.
Proof. solve_decision. Defined.

Definition ChannelId_to_nat (c : ChannelId) : nat :=
  match c with
  | ChY => 0 | ChCr => 1 | ChCb => 2 | ChR => 3 | ChG => 4 | ChB => 5
  end%nat.

Definition ChannelId_of_nat (n : nat) : ChannelId :=
  match n with
  | 0 => ChY | 1 => ChCr | 2 => ChCb | 3 => ChR | 4 => ChG | _ => ChB
  end%nat.

#[export] Instance ChannelId_countable : Countable ChannelId.
Proof.
  apply (inj_countable' ChannelId_to_nat ChannelId_of_nat).
  intros c. destruct c; reflexivity.
Defined.

(** Modelled from the spec: the ScanLine accumulator of section 3, missing
    from the sources; [channel_values] is the mapping from channel to
    intensities. *)
Record ScanLine := {
  line_index : nat;
  channel_values : gmap ChannelId (list Z);
  completeness : Completeness
}.

(** Modelled from the spec: the Frame of section 3, missing from the
    sources. *)
Record Frame := {
  mode : ModeDescriptor;
  lines : list ScanLine;
  width : nat;
  height : nat
}.

(** Modelled from the spec: the pixel raster [finalize()] yields, height
    rows of width RGB pixels; missing from the sources. *)
Definition Raster : Type := list (list (Q * Q * Q)).

(** Modelled from the spec: the sentinel for undecoded data of section 4.4,
    mid-gray; the decoder's constant is missing from the sources. *)
Definition undecoded : Z := 128.

(** *** Line Decoder (section 4.3) *)

(** Modelled from the spec: the arithmetic mean over a column window of the
    Line Decoder (missing from the sources); none for a window without
    samples. *)
Definition mean (xs : list Q) : option Q :=
  match xs with
  | [] => None
  | _ => Some (fold_right Qplus 0%Q xs / inject_Z (Z.of_nat (length xs)))%Q
  end.

(** Modelled from the spec: the column windows of the Line Decoder (missing
    from the sources).  These are the samples of a channel window that fall
    in the time slice of column [j], columns being [duration / width]
    samples wide: sample [k] of the window lies in column
    [k * width / duration]. *)
Definition column_window (window : list Q) (duration width j : nat) : list Q :=
  omap id
    (imap (fun k f => if decide ((k * width / duration)%nat = j) then Some f else None)
          window).

(** Modelled from the spec: the hold-last fill of the Line Decoder (missing
    from the sources), a column without a value repeating the previous
    column's value. *)
Fixpoint hold_last (prev : Z) (cols : list (option Z)) : list Z :=
  match cols with
  | [] => []
  | Some v :: rest => v :: hold_last v rest
  | None :: rest => prev :: hold_last prev rest
  end.

(** Modelled from the spec: the channel sub-window of the Line Decoder
    (missing from the sources),
    [[line_start + offset, line_start + offset + duration)] of the stream. *)
Definition channel_window (samples : list Q) (line_start : nat) (c : ChannelSpec)
  : list Q :=
  take (duration_samples c) (drop (line_start + offset_within_line_samples c) samples).

(** Modelled from the spec: the per-channel decoding of the Line Decoder
    (missing from the sources): the intensities of one channel of one line,
    one per pixel column.  The spec does not name the value held before the
    first column has samples; the sentinel is taken. *)
Definition decode_channel (m : ModeDescriptor) (samples : list Q) (line_start : nat)
    (c : ChannelSpec) : list Z :=
  let window := channel_window samples line_start c in
  hold_last undecoded
    (map (fun j =>
            freq_to_intensity m
              <$> mean (column_window window (duration_samples c) (image_width m) j))
         (seq 0 (image_width m))).

(** Modelled from the spec: the minimum-fraction test of the Line Decoder
    (missing from the sources): at least half of the expected samples of
    the channel window are present. *)
Definition enough_samples (samples : list Q) (line_start : nat) (c : ChannelSpec) : bool :=
  Nat.leb (duration_samples c) (2 * length (channel_window samples line_start c)).

(** Modelled from the spec: the Line Decoder of section 4.3 (missing from
    the sources), from a line anchor to a ScanLine. *)
Definition decode_line (m : ModeDescriptor) (samples : list Q)
    (index line_start : nat) : ScanLine :=
  {| line_index := index;
     channel_values :=
       foldr (fun c acc => <[channel_id c := decode_channel m samples line_start c]> acc)
             ∅ (channel_layout m);
     completeness :=
       if forallb (enough_samples samples line_start) (channel_layout m)
       then Complete else Partial |}.

(** Modelled from the spec: the ScanLine of a line whose sync pulse was not
    found (section 4.1); the decoder's own is missing from the sources. *)
Definition missing_line (index : nat) : ScanLine :=
  {| line_index := index; channel_values := ∅; completeness := Missing |}.

(** Modelled from the spec: the colour conversion of the Line Decoder
    (missing from the sources), with the ITU-R BT.601 coefficients of
    section 4.3, each component clamped to [0, 255]. *)
Definition ycrcb_to_rgb (y cr cb : Z) : Q * Q * Q :=
  let y' := inject_Z y in
  let cr' := (inject_Z cr - 128)%Q in
  let cb' := (inject_Z cb - 128)%Q in
  (Qclamp (y' + (1402 # 1000) * cr') 0 255,
   Qclamp (y' - (344 # 1000) * cb' - (714 # 1000) * cr') 0 255,
   Qclamp (y' + (1772 # 1000) * cb') 0 255)%Q.

(** Modelled from the spec: reading a ScanLine (decoder missing from the
    sources): the value of channel [c] at column [j], the sentinel where
    the ScanLine has none. *)
Definition channel_value (sl : ScanLine) (c : ChannelId) (j : nat) : Z :=
  default undecoded (channel_values sl !! c ≫= fun vs => vs !! j).

(** Modelled from the spec: one RGB pixel of a line (decoder missing from
    the sources); RGB-sequential modes pass the channel values through. *)
Definition pixel_of (cm : ColorModel) (sl : ScanLine) (j : nat) : Q * Q * Q :=
  match cm with
  | YCrCb =>
      ycrcb_to_rgb (channel_value sl ChY j) (channel_value sl ChCr j)
                   (channel_value sl ChCb j)
  | RGBSequential =>
      (inject_Z (channel_value sl ChR j), inject_Z (channel_value sl ChG j),
       inject_Z (channel_value sl ChB j))
  end.

(** *** Frame Assembler (section 4.4) *)

(** Modelled from the spec: the Frame created on VIS header detection
    (Frame Assembler missing from the sources). *)
Definition new_frame (m : ModeDescriptor) : Frame :=
  {| mode := m; lines := []; width := image_width m; height := image_height m |}.

(** Modelled from the spec: a Frame that has all its [height] lines (Frame
    Assembler missing from the sources). *)
Definition frame_full (fr : Frame) : bool := Nat.leb (height fr) (length (lines fr)).

(** Modelled from the spec: the Frame Assembler's append (missing from the
    sources): a finalized ScanLine is added after the lines of the Frame. *)
Definition append_line (fr : Frame) (sl : ScanLine) : Frame :=
  {| mode := mode fr; lines := lines fr ++ [sl];
     width := width fr; height := height fr |}.

(** Modelled from the spec: row [i] of the raster (Frame Assembler missing
    from the sources); rows beyond the last received line are the
    sentinel. *)
Definition render_row (fr : Frame) (i : nat) : list (Q * Q * Q) :=
  match lines fr !! i with
  | Some sl => map (pixel_of (color_model (mode fr)) sl) (seq 0 (width fr))
  | None => replicate (width fr) (inject_Z undecoded, inject_Z undecoded, inject_Z undecoded)
  end.

(** Modelled from the spec: the raster of a Frame, [height] rows (Frame
    Assembler missing from the sources). *)
Definition render (fr : Frame) : Raster := map (render_row fr) (seq 0 (height fr)).

(** Modelled from the spec: [finalize()] of the Frame Assembler (missing
    from the sources), as a state-passing operation on the Frame: the
    raster and the Frame after the call. *)
Definition finalize (fr : Frame) : Raster * Frame := (render fr, fr).

(** *** Decode session (sections 4.1, 4.2 and 7) *)

(** Modelled from the spec: the error taxonomy of section 7; the decoder's
    own types are missing from the sources. *)
Inductive DecodeError :=
  SyncNotFound | UnsupportedMode | LineTimeout | InsufficientSamples.

(** Modelled from the spec: the one fatal condition of section 7 (missing
    from the sources). *)
Inductive FatalError := NoSignalDetected.

(** Modelled from the spec: what the Sync Detector (missing from the
    sources) reports while it scans the stream: a VIS header with its code,
    a scan window without header, a line sync pulse with the sample it
    starts at, an extended window without pulse. *)
Inductive SyncEvent :=
| HeaderFound (vis_code : Z)
| HeaderScanExpired
| LineSync (line_start_sample : nat)
| LineSyncExpired.

(** Modelled from the spec: the state of a decode session (missing from
    the sources): the Frame under construction, the rasters emitted, the
    number of Frames started and the diagnostics recorded. *)
Record Session := {
  current : option Frame;
  emitted : list Raster;
  frames_started : nat;
  diagnostics : list DecodeError
}.

(** Modelled from the spec: the session before any report (missing from
    the sources). *)
Definition start : Session :=
  {| current := None; emitted := []; frames_started := 0; diagnostics := [] |}.

(** Modelled from the spec: finalizing the current Frame (session missing
    from the sources): the rasters emitted so far, followed by the raster of
    the current Frame. *)
Definition emit_current (s : Session) : list Raster :=
  match current s with
  | Some fr => emitted s ++ [fst (finalize fr)]
  | None => emitted s
  end.

(** Modelled from the spec: the Mode Table lookup of section 4.2, missing
    from the sources. *)
Definition lookup_mode (table : gmap Z ModeDescriptor) (vis_code : Z)
  : option ModeDescriptor := table !! vis_code.

(** Modelled from the spec: one report of the Sync Detector handled by the
    session (missing from the sources).  A header finalizes the current
    Frame and, when its code is known, starts a new one; a line is decoded
    at the next line index of the current Frame; reports about lines are
    dropped when no Frame is open or the Frame has all its lines. *)
Definition step (table : gmap Z ModeDescriptor) (samples : list Q)
    (s : Session) (ev : SyncEvent) : Session :=
  match ev with
  | HeaderFound vis_code =>
      match lookup_mode table vis_code with
      | Some m =>
          {| current := Some (new_frame m); emitted := emit_current s;
             frames_started := S (frames_started s);
             diagnostics := diagnostics s |}
      | None =>
          {| current := None; emitted := emit_current s;
             frames_started := frames_started s;
             diagnostics := diagnostics s ++ [UnsupportedMode] |}
      end
  | HeaderScanExpired =>
      {| current := current s; emitted := emitted s;
         frames_started := frames_started s;
         diagnostics := diagnostics s ++ [SyncNotFound] |}
  | LineSync line_start =>
      match current s with
      | Some fr =>
          if frame_full fr then s
          else
            let sl := decode_line (mode fr) samples (length (lines fr)) line_start in
            {| current := Some (append_line fr sl);
               emitted := emitted s;
               frames_started := frames_started s;
               diagnostics :=
                 match completeness sl with
                 | Complete => diagnostics s
                 | _ => diagnostics s ++ [InsufficientSamples]
                 end |}
      | None => s
      end
  | LineSyncExpired =>
      match current s with
      | Some fr =>
          if frame_full fr then s
          else
            {| current := Some (append_line fr (missing_line (length (lines fr))));
               emitted := emitted s;
               frames_started := frames_started s;
               diagnostics := diagnostics s ++ [LineTimeout] |}
      | None => s
      end
  end.

(** Modelled from the spec: what the caller receives (session missing from
    the sources): the rasters with the diagnostics, or the fatal error. *)
Inductive Outcome :=
| Delivered (rasters : list Raster) (diags : list DecodeError)
| Fatal (e : FatalError).

(** Modelled from the spec: the end of the input stream (session missing
    from the sources): fatal when no Frame was ever started, otherwise the
    current Frame is finalized and everything is delivered. *)
Definition finish (s : Session) : Outcome :=
  match frames_started s with
  | O => Fatal NoSignalDetected
  | S _ => Delivered (emit_current s) (diagnostics s)
  end.

(** Modelled from the spec: the session over a whole stream of reports,
    and its outcome at the end of the stream (missing from the sources). *)
Definition run_session (table : gmap Z ModeDescriptor) (samples : list Q)
    (events : list SyncEvent) : Session :=
  fold_left (step table samples) events start.

Definition decode (table : gmap Z ModeDescriptor) (samples : list Q)
    (events : list SyncEvent) : Outcome :=
  finish (run_session table samples events).

(** *** Invariants of section 3 *)

Definition in_range (v : Z) : Prop := 0 <= v <= 255.

Definition scanline_in_range (sl : ScanLine) : Prop :=
  map_Forall (fun _ vs => Forall in_range vs) (channel_values sl).

Definition pixel_in_range (p : Q * Q * Q) : Prop :=
  let '(r, g, b) := p in
  ((0 <= r)%Q /\ (r <= 255)%Q) /\ ((0 <= g)%Q /\ (g <= 255)%Q) /\
  ((0 <= b)%Q /\ (b <= 255)%Q).

Definition raster_in_range (r : Raster) : Prop := Forall (Forall pixel_in_range) r.

Definition frame_in_range (fr : Frame) : Prop := Forall scanline_in_range (lines fr).

Definition session_in_range (s : Session) : Prop :=
  (forall fr, current s = Some fr -> frame_in_range fr) /\
  Forall raster_in_range (emitted s).

(** The other two invariants of section 3: the line at position [i] of a
    Frame carries line index [i], a Frame has at most [height] lines, and no
    channel sequence is longer than the image width. *)
Definition frame_wf (fr : Frame) : Prop :=
  (length (lines fr) <= height fr)%nat /\
  width fr = image_width (mode fr) /\
  forall i sl, lines fr !! i = Some sl ->
    line_index sl = i /\
    map_Forall (fun _ vs => (length vs <= width fr)%nat) (channel_values sl).


(** The pixels of a raster as reduced fractions, for display. *)
Definition reduced (r : Raster) : Raster :=
  map (map (fun p : Q * Q * Q => let '(r, g, b) := p in (Qred r, Qred g, Qred b))) r.

(** *** A small mode for evaluating the model *)

Definition demo_mode : ModeDescriptor :=
  {| name := "demo";
     line_duration_samples := 12;
     sync_pulse_duration_samples := 2;
     sync_frequency_hz := 1200;
     channel_layout :=
       [ {| channel_id := ChY; duration_samples := 4; offset_within_line_samples := 2 |};
         {| channel_id := ChCr; duration_samples := 3; offset_within_line_samples := 6 |};
         {| channel_id := ChCb; duration_samples := 3; offset_within_line_samples := 9 |} ];
     black_frequency_hz := 1500;
     white_frequency_hz := 2300;
     color_model := YCrCb;
     image_width := 2;
     image_height := 2 |}.

Definition demo_table : gmap Z ModeDescriptor := {[ 96 := demo_mode ]}.

(** One full line (sync, black and white luma, neutral chroma) and the first
    seven samples of a second one. *)
Definition demo_samples : list Q :=
  [1200; 1200; 1500; 1500; 2300; 2300; 1900; 1900; 1900; 1900; 1900; 1900;
   1200; 1200; 2300; 2300; 1500; 1500; 1900]%Q.

Definition demo_events : list SyncEvent :=
  [HeaderScanExpired; HeaderFound 5; HeaderFound 96; LineSync 0; LineSync 12].

End Decoder.

(** ** More of the scripts: reductions, slices, canvases *)

Module Reduce.
Import NumPy.

(** The maximum [arr.max()] folds with: NaN wins over everything. *)
Definition fmaximum (a b : np_float) : np_float :=
  match a, b with
  | NaN, _ | _, NaN => NaN
  | _, _ => if fge a b then a else b
  end.

Definition fsum (l : list np_float) : np_float := fold_left fadd l (Finite 0).

(** [arr.mean()] on the elements of an array: the sum over the count; NaN
    (with a warning) on an array without elements. *)
Definition fmean (l : list np_float) : np_float :=
  fdiv (fsum l) (Finite (inject_Z (Z.of_nat (length l)))).

(** [arr.max()] of a float array; [None] (a ValueError) on an array without
    elements. *)
Definition fmax (l : list np_float) : option np_float :=
  match l with
  | [] => None
  | x :: r => Some (fold_left fmaximum r x)
  end.

(** [a[lo:hi]] for [0 <= lo <= hi]. *)
Definition slice {A} (lo hi : nat) (l : list A) : list A := take (hi - lo) (drop lo l).

(** [a[::2]]. *)
Fixpoint every_other {A} (l : list A) : list A :=
  match l with
  | x :: _ :: rest => x :: every_other rest
  | _ => l
  end.

End Reduce.

(** ** PIL canvases *)

Module PIL.
Import NumPy Compare.

(** [Image.new('RGB', (w, h))]: a black image. *)
Definition new_image (sz : nat * nat) : image :=
  let '(w, h) := sz in replicate h (replicate w (0, 0, 0)).

(** [canvas.paste(im, (x, y))]: the pixels of [im] replace those of the
    canvas from column [x], row [y] on; what falls outside the canvas is
    cut off. *)
Definition paste (canvas im : image) (box : nat * nat) : image :=
  let '(x, y) := box in
  imap (fun i r =>
          imap (fun j p =>
                  if Nat.leb y i && Nat.leb x j
                  then default p (im !! (i - y)%nat ≫= fun r' => r' !! (j - x)%nat)
                  else p)
               r)
       canvas.

End PIL.

(** ** scripts/compare_images.py and scripts/compare_aligned.py: the
       statistics, the second search and the saved images *)

Module CompareOutput.
Import NumPy Compare Reduce PIL.

(** [diff.mean()] and [diff.max()] of
    [diff = np.abs(dec_arr.astype(float) - exp_arr.astype(float))]. *)
Definition mean_abs_diff (dec_arr exp_arr : array3 Z) : option np_float :=
  (fun d => fmean (flatten d)) <$> difference dec_arr exp_arr.

Definition max_diff (dec_arr exp_arr : array3 Z) : option np_float :=
  difference dec_arr exp_arr ≫= fun d => fmax (flatten d).

(** The absolute differences [|d - e|] of two flattened [uint8] arrays, as
    integers. *)
Definition abs_diffs (xs ys : list Z) : list Z :=
  zip_with (fun d e => Z.abs (d - e)) xs ys.

(** The pixels read by the sample comparison,
    [for y, x in [(50, 50), (100, 320), (200, 200), (300, 400)]: arr[y, x]];
    [None] is an IndexError. *)
Definition sample_points : list (nat * nat) :=
  [(50, 50); (100, 320); (200, 200); (300, 400)]%nat.

Definition sample_pixels (arr : array3 Z) : option (list (pixel Z)) :=
  mapM (fun yx : nat * nat => arr !! fst yx ≫= fun r => r !! snd yx) sample_points.

Section WithLibraries.

Variable resize : image -> nat * nat -> image.

(** The side-by-side image:
    [comparison = Image.new('RGB', (decoded.width * 2, decoded.height))],
    [comparison.paste(decoded, (0, 0))],
    [comparison.paste(expected.resize(decoded.size, ...), (decoded.width, 0))]. *)
Definition comparison_image (decoded expected : image) : image :=
  let '(width, height) := img_size decoded in
  let canvas := new_image ((width * 2)%nat, height) in
  let canvas := paste canvas decoded (0%nat, 0%nat) in
  paste canvas (resize expected (img_size decoded)) (width, 0%nat).

End WithLibraries.

End CompareOutput.

(** ** analyze_freq.py: the dark region and the bright pixels *)

Module FreqRegions.
Import NumPy Reduce.

(** [arr[10:30, 10:30, :]]. *)
Definition dark_region {A} (arr : array3 A) : array3 A :=
  map (slice 10 30) (slice 10 30 arr).

(** [region.mean()] of a [uint8] region. *)
Definition region_mean (region : array3 Z) : np_float :=
  fmean (map of_uint8 (flatten region)).

(** [np.mean(arr, axis=2)]: the mean of the three channels of each pixel. *)
Definition gray (arr : array3 Z) : list (list np_float) :=
  map (map (fun p => fmean (map of_uint8 (px_list p)))) arr.

(** The sum of the three channels of a pixel. *)
Definition px_sum (p : pixel Z) : Z := let '(r, g, b) := p in r + g + b.

(** [gray > 200]. *)
Definition bright_mask (g : list (list np_float)) : list (list bool) :=
  map (map (fun v => fgt v (Finite 200))) g.

(** [mask.sum()]: the number of [True] entries. *)
Definition mask_sum (mask : list (list bool)) : nat :=
  length (List.filter id (concat mask)).

(** [g[mask]]: the entries of [g] where the mask is [True], in row-major
    order. *)
Definition masked (g : list (list np_float)) (mask : list (list bool)) : list np_float :=
  map fst (List.filter snd (zip (concat g) (concat mask))).

(** What the bright-pixel report prints: the count and the mean of the
    bright pixels when [bright_mask.sum() > 0], "no pixels > 200"
    ([None]) otherwise. *)
Definition bright_report (arr : array3 Z) : option (nat * np_float) :=
  let g := gray arr in
  let m := bright_mask g in
  if Nat.ltb 0 (mask_sum m) then Some (mask_sum m, fmean (masked g m)) else None.

End FreqRegions.

(** ** visual_comparison.py: the enhanced difference and the line pairs *)

Module VisualComparison.
Import NumPy Reduce.

(** [diff_enhanced = np.clip(diff * 3, 0, 255).astype(np.uint8)]. *)
Definition diff_enhanced (diff : array3 np_float) : array3 (option Z) :=
  amap (fun v => astype_uint8 (np_clip (fmul v (Finite 3)) 0 255)) diff.

(** [dec_arr[::2, :, :]] and [dec_arr[1::2, :, :]]. *)
Definition dec_even {A} (dec_arr : array3 A) : array3 A := every_other dec_arr.
Definition dec_odd {A} (dec_arr : array3 A) : array3 A := every_other (drop 1 dec_arr).

(** [even_shifted] and [odd_compare] of one iteration of the line-pair
    loop: the whole arrays for shift 0, otherwise the even lines without
    their first (or last) [|shift|] columns against the odd lines without
    their last (or first) ones. *)
Definition line_pair_slices {A} (shift : Z) (even odd : array3 A)
  : array3 A * array3 A :=
  if shift =? 0 then (even, odd)
  else if 0 <? shift then
    (map (drop (Z.to_nat shift)) even,
     map (fun r => take (length r - Z.to_nat shift) r) odd)
  else
    (map (fun r => take (length r - Z.to_nat (- shift)) r) even,
     map (drop (Z.to_nat (- shift))) odd).

End VisualComparison.

(* ===================================================================== *)
(** * Part II.  Properties                                                *)
(* ===================================================================== *)

(** ** Rounding and clamping *)

Lemma round_half_even_inject (n : Z) : round_half_even (inject_Z n) = n.
Proof.
  unfold round_half_even. rewrite Qfloor_Z.
  assert (E : (inject_Z n - inject_Z n ?= 1 # 2)%Q = Lt).
  { apply (proj1 (Qlt_alt _ _)). unfold Qlt. simpl. lia. }
  now rewrite E.
Qed.

#[export] Instance round_half_even_Proper : Proper (Qeq ==> eq) round_half_even.
Proof.
  intros x y E. unfold round_half_even.
  rewrite (Qfloor_comp _ _ E).
  assert (E' : (x - inject_Z (Qfloor y) == y - inject_Z (Qfloor y))%Q) by (rewrite E; reflexivity).
  now rewrite (Qcompare_comp _ _ E' (1 # 2)%Q (1 # 2)%Q (Qeq_refl _)).
Qed.

Lemma round_half_even_bounds (x : Q) :
  Qfloor x <= round_half_even x <= Qfloor x + 1.
Proof.
  unfold round_half_even.
  destruct (x - inject_Z (Qfloor x) ?= 1 # 2)%Q; [destruct (Z.even _) | |]; lia.
Qed.

Lemma round_half_even_mono (x y : Q) :
  (x <= y)%Q -> round_half_even x <= round_half_even y.
Proof.
  intros Hxy.
  pose proof (Qfloor_resp_le _ _ Hxy) as Hfl.
  destruct (Z.eq_dec (Qfloor x) (Qfloor y)) as [E | NE].
  - unfold round_half_even. rewrite E.
    destruct (Qcompare_spec (x - inject_Z (Qfloor y)) (1 # 2)) as [Hx | Hx | Hx];
      destruct (Qcompare_spec (y - inject_Z (Qfloor y)) (1 # 2)) as [Hy | Hy | Hy];
      try destruct (Z.even (Qfloor y)); try lia; exfalso; lra.
  - pose proof (round_half_even_bounds x). pose proof (round_half_even_bounds y). lia.
Qed.

Lemma clamp_range (v : Z) : 0 <= clamp v 0 255 <= 255.
Proof. unfold clamp. lia. Qed.

Lemma clamp_mono (v w lo hi : Z) : v <= w -> clamp v lo hi <= clamp w lo hi.
Proof. unfold clamp. lia. Qed.

(** ** The frequency-to-intensity mapping *)

Section Mapping.
Import Decoder.

#[export] Instance freq_to_intensity_Proper (m : ModeDescriptor) :
  Proper (Qeq ==> eq) (freq_to_intensity m).
Proof.
  intros f g E. unfold freq_to_intensity. f_equal.
  apply round_half_even_Proper. now rewrite E.
Qed.

Lemma freq_to_intensity_range (m : ModeDescriptor) (f : Q) :
  0 <= freq_to_intensity m f <= 255.
Proof. apply clamp_range. Qed.

(** The mapping is non-decreasing in the frequency as soon as the white
    frequency is not below the black one. *)
Lemma freq_to_intensity_mono (m : ModeDescriptor) (f1 f2 : Q) :
  (black_frequency_hz m <= white_frequency_hz m)%Q ->
  (f1 <= f2)%Q ->
  freq_to_intensity m f1 <= freq_to_intensity m f2.
Proof.
  intros Hbw Hf. unfold freq_to_intensity.
  apply clamp_mono, round_half_even_mono.
  apply Qmult_le_compat_r; [| discriminate].
  unfold Qdiv. apply Qmult_le_compat_r; [lra |].
  apply Qinv_le_0_compat. lra.
Qed.

(** C1.  For every mode whose black frequency is below its white frequency,
    a frequency exactly at [black_frequency_hz] decodes to intensity 0 and a
    frequency exactly at [white_frequency_hz] decodes to intensity 255. *)
Theorem freq_to_intensity_boundaries (m : ModeDescriptor) :
  (black_frequency_hz m < white_frequency_hz m)%Q ->
  freq_to_intensity m (black_frequency_hz m) = 0 /\
  freq_to_intensity m (white_frequency_hz m) = 255.
Proof.
  intros Hbw. unfold freq_to_intensity.
  set (b := black_frequency_hz m) in *. set (w := white_frequency_hz m) in *.
  assert (Hne : ~ (w - b == 0)%Q) by lra.
  split.
  - assert (E : ((b - b) / (w - b) * 255 == inject_Z 0)%Q) by (simpl; field; exact Hne).
    now rewrite (round_half_even_Proper _ _ E), round_half_even_inject.
  - assert (E : ((w - b) / (w - b) * 255 == inject_Z 255)%Q) by (simpl; field; exact Hne).
    now rewrite (round_half_even_Proper _ _ E), round_half_even_inject.
Qed.

(** C3.  On the interval from the black to the white frequency the mapping
    is monotonic non-decreasing: [f1 <= f2] gives
    [intensity f1 <= intensity f2]. *)
Theorem freq_to_intensity_monotonic (m : ModeDescriptor) (f1 f2 : Q) :
  (black_frequency_hz m <= f1)%Q ->
  (f1 <= f2)%Q ->
  (f2 <= white_frequency_hz m)%Q ->
  freq_to_intensity m f1 <= freq_to_intensity m f2.
Proof.
  intros H1 H12 H2. apply freq_to_intensity_mono; [lra | exact H12].
Qed.

Lemma freq_to_intensity_boundaries_witness :
  freq_to_intensity demo_mode 1500 = 0 /\ freq_to_intensity demo_mode 2300 = 255.
Proof. apply (freq_to_intensity_boundaries demo_mode). reflexivity. Defined.

Lemma freq_to_intensity_monotonic_witness :
  freq_to_intensity demo_mode 1700 <= freq_to_intensity demo_mode 2100.
Proof.
  apply (freq_to_intensity_monotonic demo_mode 1700 2100);
    unfold Qle; simpl; lia.
Defined.

(** The mid-scale frequency 1900 Hz lands on the tie 127.5 and rounds to the
    even neighbour. *)
Example freq_to_intensity_mid : freq_to_intensity demo_mode 1900 = 128.
Proof. reflexivity. Qed.

(** Outside the interval the clamp takes over. *)
Example freq_to_intensity_sync : freq_to_intensity demo_mode 1200 = 0.
Proof. reflexivity. Qed.

End Mapping.

(** ** NumPy values *)

Section NumPyFacts.
Import NumPy.

Lemma Qclamp_range (v lo hi : Q) :
  (lo <= hi)%Q -> (lo <= Qclamp v lo hi)%Q /\ (Qclamp v lo hi <= hi)%Q.
Proof.
  intros Hlh. unfold Qclamp.
  destruct (Qle_bool lo v) eqn:E1.
  - apply Qle_bool_iff in E1.
    destruct (Qle_bool v hi) eqn:E2.
    + apply Qle_bool_iff in E2. split; assumption.
    + split; [assumption | apply Qle_refl].
  - destruct (Qle_bool lo hi) eqn:E2.
    + split; [apply Qle_refl | assumption].
    + split; [assumption | apply Qle_refl].
Qed.

Lemma Qclamp_id (v lo hi : Q) : (lo <= v)%Q -> (v <= hi)%Q -> Qclamp v lo hi = v.
Proof.
  intros H1 H2. unfold Qclamp.
  apply Qle_bool_iff in H1. rewrite H1.
  apply Qle_bool_iff in H2. now rewrite H2.
Qed.

Lemma Qtrunc_range (q : Q) (lo hi : Z) :
  lo <= 0 -> (inject_Z lo <= q)%Q -> (q <= inject_Z hi)%Q -> lo <= Qtrunc q <= hi.
Proof.
  intros Hlo H1 H2. unfold Qtrunc.
  destruct (Qle_bool 0 q) eqn:E.
  - apply Qle_bool_iff in E.
    pose proof (Qfloor_resp_le _ _ E) as F0. pose proof (Qfloor_resp_le _ _ H2) as F1.
    rewrite Qfloor_Z in F1. change (Qfloor 0) with 0 in F0. lia.
  - pose proof (Qceiling_resp_le _ _ H1) as C0. pose proof (Qceiling_resp_le _ _ H2) as C1.
    rewrite Qceiling_Z in C0, C1. lia.
Qed.

(** After [np.clip(_, 0, 255)] the [uint8] cast of a value that is not
    [NaN] is defined and inside [0, 255]. *)
Lemma clip_cast_range (a : np_float) :
  a <> NaN ->
  exists z, astype_uint8 (np_clip a 0 255) = Some z /\ 0 <= z <= 255.
Proof.
  intros Hn.
  assert (H : forall q, exists z,
             astype_uint8 (Finite (Qclamp q 0 255)) = Some z /\ 0 <= z <= 255).
  { intros q. destruct (Qclamp_range q 0 255) as [L U]; [discriminate |].
    exists (Qtrunc (Qclamp q 0 255) mod 256). split; [reflexivity |].
    pose proof (Qtrunc_range (Qclamp q 0 255) 0 255 (Z.le_refl 0) L U) as R.
    rewrite Z.mod_small; lia. }
  destruct a; simpl; try apply H. now elim Hn.
Qed.

(** Whatever the value, a cast that is defined after [np.clip(_, 0, 255)]
    is inside [0, 255]. *)
Lemma clip_cast_in_range (a : np_float) (z : Z) :
  astype_uint8 (np_clip a 0 255) = Some z -> 0 <= z <= 255.
Proof.
  destruct a as [q | | |] eqn:E;
    try (destruct (clip_cast_range a ltac:(subst; discriminate)) as (z' & Hz & R);
         subst a; rewrite Hz; intros [= <-]; exact R).
  discriminate.
Qed.

Lemma flatten_row_map {A B} (f : A -> B) (r : row A) :
  flatten_row (map (px_map f) r) = map f (flatten_row r).
Proof.
  induction r as [| [[x y] z] r IH]; [reflexivity |].
  unfold flatten_row in *. simpl. now rewrite IH.
Qed.

Lemma flatten_amap {A B} (f : A -> B) (arr : array3 A) :
  flatten (amap f arr) = map f (flatten arr).
Proof.
  induction arr as [| r arr IH]; [reflexivity |].
  unfold flatten, amap in *. simpl.
  rewrite IH, map_app. f_equal. apply flatten_row_map.
Qed.

Lemma shape_amap {A B} (f : A -> B) (arr : array3 A) : shape (amap f arr) = shape arr.
Proof.
  unfold shape, amap. rewrite length_map.
  destruct arr as [| r arr]; [reflexivity |]. simpl. now rewrite length_map.
Qed.

Lemma flatten_row_zip_Forall {A B C} (f : A -> B -> C) (P : C -> Prop)
    (r : row A) (r' : row B) :
  (forall x y, P (f x y)) -> Forall P (flatten_row (zip_with (px_zip f) r r')).
Proof.
  intros Hf. revert r'. induction r as [| [[x1 x2] x3] r IH]; intros r'.
  - constructor.
  - destruct r' as [| [[y1 y2] y3] r']; [constructor |].
    unfold flatten_row in *. simpl. repeat (constructor; [apply Hf |]). apply IH.
Qed.

(** Every element of an elementwise result is a value of the operation. *)
Lemma azip_Forall {A B C} (f : A -> B -> C) (P : C -> Prop)
    (a : array3 A) (b : array3 B) (c : array3 C) :
  (forall x y, P (f x y)) -> azip f a b = Some c -> Forall P (flatten c).
Proof.
  intros Hf. unfold azip. destruct (shape_eqb _ _); [| discriminate].
  intros [= <-]. revert b. induction a as [| r a IH]; intros b.
  - constructor.
  - destruct b as [| r' b]; [constructor |].
    unfold flatten in *. simpl. apply Forall_app. split.
    + now apply flatten_row_zip_Forall.
    + apply IH.
Qed.

Lemma fold_min_spec (l : list Z) (x : Z) :
  (fold_left Z.min l x <= x) /\ Forall (fun v => fold_left Z.min l x <= v) l /\
  In (fold_left Z.min l x) (x :: l).
Proof.
  revert x. induction l as [| y l IH]; intros x; simpl.
  - repeat split; [lia | constructor | now left].
  - destruct (IH (Z.min x y)) as (H1 & H2 & H3). repeat split.
    + lia.
    + constructor; [lia | exact H2].
    + destruct H3 as [H3 | H3]; [| now right; right].
      rewrite <- H3. destruct (Z.min_spec x y) as [[_ E] | [_ E]]; rewrite E; auto.
Qed.

Lemma fold_max_spec (l : list Z) (x : Z) :
  (x <= fold_left Z.max l x) /\ Forall (fun v => v <= fold_left Z.max l x) l /\
  In (fold_left Z.max l x) (x :: l).
Proof.
  revert x. induction l as [| y l IH]; intros x; simpl.
  - repeat split; [lia | constructor | now left].
  - destruct (IH (Z.max x y)) as (H1 & H2 & H3). repeat split.
    + lia.
    + constructor; [lia | exact H2].
    + destruct H3 as [H3 | H3]; [| now right; right].
      rewrite <- H3. destruct (Z.max_spec x y) as [[_ E] | [_ E]]; rewrite E; auto.
Qed.

(** [arr.min()] is an element of the array and a lower bound of it. *)
Lemma amin_spec (arr : array3 Z) :
  flatten arr <> [] ->
  exists m, amin arr = Some m /\ In m (flatten arr) /\
            forall v, In v (flatten arr) -> m <= v.
Proof.
  intros Hne. unfold amin. destruct (flatten arr) as [| x l]; [congruence |].
  destruct (fold_min_spec l x) as (H1 & H2 & H3).
  eexists. split; [reflexivity |]. split; [exact H3 |].
  intros v [<- | Hv]; [exact H1 |].
  rewrite Forall_forall in H2. apply H2. now apply list_elem_of_In.
Qed.

(** [arr.max()] is an element of the array and an upper bound of it. *)
Lemma amax_spec (arr : array3 Z) :
  flatten arr <> [] ->
  exists m, amax arr = Some m /\ In m (flatten arr) /\
            forall v, In v (flatten arr) -> v <= m.
Proof.
  intros Hne. unfold amax. destruct (flatten arr) as [| x l]; [congruence |].
  destruct (fold_max_spec l x) as (H1 & H2 & H3).
  eexists. split; [reflexivity |]. split; [exact H3 |].
  intros v [<- | Hv]; [exact H1 |].
  rewrite Forall_forall in H2. apply H2. now apply list_elem_of_In.
Qed.

Lemma is_uint8_array_In (arr : array3 Z) (v : Z) :
  is_uint8_array arr = true -> In v (flatten arr) -> 0 <= v <= 255.
Proof.
  unfold is_uint8_array. rewrite forallb_forall. intros H Hv.
  specialize (H v Hv). unfold is_uint8 in H. lia.
Qed.

End NumPyFacts.

(** ** analyze_freq.py: the linear rescale *)

Section AnalyzeFreqFacts.
Import NumPy AnalyzeFreq.

(** "For black (freq = 1500): decoded = 0", "For white (freq = 2300):
    decoded = 255". *)
Example pixel_value_black : (pixel_value 1500 == 0)%Q.
Proof. reflexivity. Qed.

Example pixel_value_white : (pixel_value 2300 == 255)%Q.
Proof. reflexivity. Qed.

(** With the common 1500 Hz and 2300 Hz the decoder's mapping is the
    script's [pixel_value], rounded and clamped. *)
Lemma freq_to_intensity_pixel_value (m : Decoder.ModeDescriptor) (f : Q) :
  Decoder.black_frequency_hz m = 1500%Q ->
  Decoder.white_frequency_hz m = 2300%Q ->
  Decoder.freq_to_intensity m f = clamp (round_half_even (pixel_value f)) 0 255.
Proof.
  intros Eb Ew. unfold Decoder.freq_to_intensity, pixel_value. rewrite Eb, Ew.
  reflexivity.
Qed.

(** The two levels printed for the 1500-2300 Hz mapping. *)
Example expected_for_black : (expected_should_be 0 == 28)%Q.
Proof. reflexivity. Qed.

Example expected_for_white : (expected_should_be 255 == 2167 # 10)%Q.
Proof. reflexivity. Qed.

Lemma uint8_sub_exact (lo hi : Z) :
  0 <= lo -> lo <= hi -> hi <= 255 -> uint8_sub hi lo = hi - lo.
Proof. intros. unfold uint8_sub. apply Z.mod_small. lia. Qed.

Lemma inject_Z_nonzero (d : Z) : d <> 0 -> Qeq_bool (inject_Z d) 0 = false.
Proof.
  intros Hd. destruct (Qeq_bool (inject_Z d) 0) eqn:E; [| reflexivity].
  apply Qeq_bool_iff in E. unfold Qeq in E. simpl in E. lia.
Qed.

Lemma inject_Z_sub (a b : Z) : inject_Z (a - b) = (inject_Z a + - inject_Z b)%Q.
Proof. unfold Z.sub. now rewrite inject_Z_plus, inject_Z_opp. Qed.

(** With a non-zero divisor every element of the rescaled array is the
    finite value of the linear formula. *)
Lemma rescale_finite (dec_min dec_max exp_min exp_max v : Z) :
  uint8_sub dec_max dec_min <> 0 ->
  rescale dec_min dec_max exp_min exp_max v =
  Finite ((inject_Z v + - inject_Z dec_min) * inject_Z (uint8_sub exp_max exp_min)
            / inject_Z (uint8_sub dec_max dec_min) + inject_Z exp_min)%Q.
Proof.
  intros Hd. unfold rescale, fsub, fneg, of_uint8, fmul, fadd, fdiv.
  now rewrite (inject_Z_nonzero _ Hd).
Qed.


(** [np.clip(corrected, 0, 255).astype(np.uint8)]: whatever the two arrays,
    an element of [corrected] that is defined is inside [0, 255]. *)
Lemma corrected_in_range (dec_arr exp_arr : array3 Z) (c : array3 (option Z)) :
  corrected dec_arr exp_arr = Some c ->
  Forall (fun o => forall z, o = Some z -> 0 <= z <= 255) (flatten c).
Proof.
  unfold corrected. destruct (corrected_float dec_arr exp_arr) as [fl |]; [| discriminate].
  intros [= <-]. rewrite flatten_amap. apply Forall_map, Forall_forall.
  intros v _ z. simpl. apply clip_cast_in_range.
Qed.

(** C9.  For [uint8] arrays, the decoded one holding two distinct values
    [x] and [y] and the expected one at least one element: the four extremes
    exist, the divisor [dec_max - dec_min] is not zero, every rescaled
    element is finite, the rescale sends [dec_min] to [exp_min] and [dec_max]
    to [exp_max], and every element of [corrected] after the clip and the
    cast is a defined value in [0, 255]. *)
Theorem rescale_total_exact_and_clipped (dec_arr exp_arr : array3 Z) (x y : Z) :
  is_uint8_array dec_arr = true ->
  is_uint8_array exp_arr = true ->
  flatten exp_arr <> [] ->
  In x (flatten dec_arr) -> In y (flatten dec_arr) -> x <> y ->
  exists dec_min dec_max exp_min exp_max,
    amin dec_arr = Some dec_min /\ amax dec_arr = Some dec_max /\
    amin exp_arr = Some exp_min /\ amax exp_arr = Some exp_max /\
    uint8_sub dec_max dec_min <> 0 /\
    (forall v, exists q, rescale dec_min dec_max exp_min exp_max v = Finite q) /\
    (exists q, rescale dec_min dec_max exp_min exp_max dec_min = Finite q /\
               (q == inject_Z exp_min)%Q) /\
    (exists q, rescale dec_min dec_max exp_min exp_max dec_max = Finite q /\
               (q == inject_Z exp_max)%Q) /\
    exists c, corrected dec_arr exp_arr = Some c /\
              shape c = shape dec_arr /\
              Forall (fun o => exists z, o = Some z /\ 0 <= z <= 255) (flatten c).
Proof.
  intros Ud Ue Hne Hx Hy Hxy.
  assert (Hned : flatten dec_arr <> []) by (intros E; rewrite E in Hx; exact Hx).
  destruct (amin_spec dec_arr Hned) as (dmin & Edmin & Idmin & Ldmin).
  destruct (amax_spec dec_arr Hned) as (dmax & Edmax & Idmax & Ldmax).
  destruct (amin_spec exp_arr Hne) as (emin & Eemin & Iemin & Lemin).
  destruct (amax_spec exp_arr Hne) as (emax & Eemax & Iemax & Lemax).
  pose proof (is_uint8_array_In _ _ Ud Idmin) as Bdmin.
  pose proof (is_uint8_array_In _ _ Ud Idmax) as Bdmax.
  pose proof (is_uint8_array_In _ _ Ue Iemin) as Bemin.
  pose proof (is_uint8_array_In _ _ Ue Iemax) as Bemax.
  pose proof (Ldmin x Hx). pose proof (Ldmin y Hy).
  pose proof (Ldmax x Hx). pose proof (Ldmax y Hy).
  pose proof (Lemin emax Iemax) as Hee.
  assert (Ed : uint8_sub dmax dmin = dmax - dmin) by (apply uint8_sub_exact; lia).
  assert (Ee : uint8_sub emax emin = emax - emin) by (apply uint8_sub_exact; lia).
  assert (Hd : uint8_sub dmax dmin <> 0) by lia.
  assert (HdQ : ~ (inject_Z dmax + - inject_Z dmin == 0)%Q).
  { rewrite <- inject_Z_sub. unfold Qeq. simpl. lia. }
  exists dmin, dmax, emin, emax.
  repeat (split; [assumption |]).
  split; [| split; [| split]].
  - intros v. eexists. apply rescale_finite, Hd.
  - eexists. split; [apply rescale_finite, Hd |].
    rewrite Ed, Ee, !inject_Z_sub. field. exact HdQ.
  - eexists. split; [apply rescale_finite, Hd |].
    rewrite Ed, Ee, !inject_Z_sub. field. exact HdQ.
  - unfold corrected, corrected_float. rewrite Edmin, Edmax, Eemin, Eemax. simpl.
    eexists. split; [reflexivity |]. split.
    + now rewrite !shape_amap.
    + rewrite !flatten_amap. apply Forall_map, Forall_map, Forall_forall.
      intros v _. simpl. apply clip_cast_range.
      rewrite (rescale_finite _ _ _ _ _ Hd). discriminate.
Qed.

Lemma rescale_total_exact_and_clipped_witness :
  exists dec_min dec_max exp_min exp_max,
    amin demo_dec_arr = Some dec_min /\ amax demo_dec_arr = Some dec_max /\
    amin demo_exp_arr = Some exp_min /\ amax demo_exp_arr = Some exp_max /\
    uint8_sub dec_max dec_min <> 0 /\
    (forall v, exists q, rescale dec_min dec_max exp_min exp_max v = Finite q) /\
    (exists q, rescale dec_min dec_max exp_min exp_max dec_min = Finite q /\
               (q == inject_Z exp_min)%Q) /\
    (exists q, rescale dec_min dec_max exp_min exp_max dec_max = Finite q /\
               (q == inject_Z exp_max)%Q) /\
    exists c, corrected demo_dec_arr demo_exp_arr = Some c /\
              shape c = shape demo_dec_arr /\
              Forall (fun o => exists z, o = Some z /\ 0 <= z <= 255) (flatten c).
Proof.
  apply (rescale_total_exact_and_clipped demo_dec_arr demo_exp_arr 10 20).
  - reflexivity.
  - reflexivity.
  - simpl. discriminate.
  - simpl. tauto.
  - simpl. tauto.
  - lia.
Defined.

Example corrected_demo :
  corrected demo_dec_arr demo_exp_arr
  = Some [[(Some 0, Some 40, Some 80); (Some 120, Some 160, Some 200)]].
Proof. vm_compute. reflexivity. Qed.

(** On a decoded image of one value the divisor is zero, the rescaled
    elements are [NaN] and the cast is undefined. *)
Example corrected_constant_image :
  corrected [[(10, 10, 10)]] demo_exp_arr = Some [[(None, None, None)]].
Proof. vm_compute. reflexivity. Qed.

End AnalyzeFreqFacts.

(** ** The comparison scripts: resize and difference *)

Section ResizeAndDifference.
Import NumPy Compare.

Lemma shape_eqb_eq (s t : nat * nat * nat) : shape_eqb s t = true <-> s = t.
Proof.
  destruct s as [[a b] c], t as [[a' b'] c']. unfold shape_eqb.
  rewrite !andb_true_iff, !Nat.eqb_eq. split.
  - intros [[-> ->] ->]. reflexivity.
  - intros E. injection E as -> -> ->. auto.
Qed.

Lemma rectangular_rows {A} (arr : array3 A) :
  rectangular arr = true <-> Forall (fun r => length r = snd (fst (shape arr))) arr.
Proof.
  unfold rectangular. rewrite forallb_forall, Forall_forall. split.
  - intros H r Hr. apply Nat.eqb_eq, H. now apply list_elem_of_In.
  - intros H r Hr. apply Nat.eqb_eq, H. now apply list_elem_of_In.
Qed.

Lemma zip_rows_width {A B C} (g : pixel A -> pixel B -> pixel C) (w : nat)
    (a : array3 A) (b : array3 B) :
  Forall (fun r => length r = w) a ->
  Forall (fun r => length r = w) b ->
  Forall (fun r => length r = w) (zip_with (zip_with g) a b).
Proof.
  intros Ha. revert b. induction Ha as [| r a Hr Ha IH]; intros b Hb.
  - constructor.
  - destruct Hb as [| r' b Hr' Hb]; [constructor |]. simpl. constructor.
    + rewrite length_zip_with. lia.
    + apply IH, Hb.
Qed.

(** On two arrays of one shape the elementwise operation is defined and its
    result has that shape; it is rectangular when both operands are. *)
Lemma azip_shape {A B C} (f : A -> B -> C) (a : array3 A) (b : array3 B) :
  shape a = shape b ->
  exists c, azip f a b = Some c /\ shape c = shape a /\
            (rectangular a = true -> rectangular b = true -> rectangular c = true).
Proof.
  intros E. unfold azip. rewrite (proj2 (shape_eqb_eq _ _) E).
  eexists. split; [reflexivity |].
  assert (S : shape (zip_with (zip_with (px_zip f)) a b) = shape a).
  { unfold shape, array3, row in *. rewrite length_zip_with.
    destruct a as [| r a], b as [| r' b]; simpl in *; try congruence.
    injection E as E1 E2. now rewrite length_zip_with, E1, E2, !Nat.min_id. }
  split; [exact S |].
  intros Ra Rb. apply rectangular_rows. rewrite S.
  apply rectangular_rows in Ra. apply rectangular_rows in Rb. rewrite <- E in Rb.
  now apply zip_rows_width.
Qed.

Lemma img_size_shape (a b : image) : img_size a = img_size b <-> shape a = shape b.
Proof.
  unfold img_size. destruct (shape a) as [[h w] c] eqn:Ea, (shape b) as [[h' w'] c'] eqn:Eb.
  unfold shape in Ea, Eb. simpl. split; intros E; injection E as -> ->; congruence.
Qed.

Variable resize : image -> nat * nat -> image.

(** C10.  For rectangular input images and a [resize] that returns a
    rectangular image of the requested size: [dec_arr] is the decoded image's
    array; when the two shapes differ [exp_arr] is the array of the expected
    image resized to the decoded image's size, otherwise the expected array
    itself; the difference is defined and has exactly the decoded array's
    shape (height, width, 3). *)
Theorem difference_has_decoded_shape (decoded expected : image) :
  rectangular decoded = true ->
  rectangular expected = true ->
  img_size (resize expected (img_size decoded)) = img_size decoded ->
  rectangular (resize expected (img_size decoded)) = true ->
  dec_arr (run resize decoded expected) = np_array decoded /\
  (shape (np_array decoded) <> shape (np_array expected) ->
   exp_arr (run resize decoded expected)
   = np_array (resize expected (img_size decoded))) /\
  (shape (np_array decoded) = shape (np_array expected) ->
   exp_arr (run resize decoded expected) = np_array expected) /\
  exists d, diff (run resize decoded expected) = Some d /\
            shape d = shape (np_array decoded) /\
            rectangular d = true.
Proof using Type.
  intros Rd Re Hsz Rr. unfold run, load_arrays, np_array.
  destruct (shape_eqb (shape decoded) (shape expected)) eqn:E; simpl.
  - apply shape_eqb_eq in E. split; [reflexivity |].
    split; [intros N; now elim N |]. split; [reflexivity |].
    destruct (azip_shape (fun d e => fabs (fsub (of_uint8 d) (of_uint8 e)))
                decoded expected E) as (c & Hc & Sc & Rc).
    exists c. unfold difference. auto.
  - assert (N : shape decoded <> shape expected).
    { intros N. apply shape_eqb_eq in N. congruence. }
    split; [reflexivity |]. split; [reflexivity |].
    split; [intros N'; now elim N |].
    apply img_size_shape in Hsz. symmetry in Hsz.
    destruct (azip_shape (fun d e => fabs (fsub (of_uint8 d) (of_uint8 e)))
                decoded (resize expected (img_size decoded)) Hsz) as (c & Hc & Sc & Rc).
    exists c. unfold difference. auto.
Qed.

End ResizeAndDifference.

Section ResizeWitness.
Import NumPy Compare.

(** [np.clip(diff * 2, 0, 255).astype(np.uint8)]: every pixel value of the
    difference image of two arrays is defined and inside [0, 255]. *)
Lemma diff_img_in_range (dec_arr exp_arr : array3 Z) (d : array3 np_float) :
  difference dec_arr exp_arr = Some d ->
  Forall (fun o => exists z, o = Some z /\ 0 <= z <= 255) (flatten (diff_img d)).
Proof.
  intros Hd. unfold diff_img. rewrite flatten_amap. apply Forall_map.
  eapply Forall_impl.
  - exact (azip_Forall _ (fun v => exists q, v = Finite q) _ _ _
             (fun x y => ex_intro _ _ eq_refl) Hd).
  - intros v (q & ->). simpl. apply (clip_cast_range (Finite (q * 2))). discriminate.
Qed.

Lemma difference_has_decoded_shape_witness :
  dec_arr (run resize_nearest demo_decoded demo_expected) = np_array demo_decoded /\
  (shape (np_array demo_decoded) <> shape (np_array demo_expected) ->
   exp_arr (run resize_nearest demo_decoded demo_expected)
   = np_array (resize_nearest demo_expected (img_size demo_decoded))) /\
  (shape (np_array demo_decoded) = shape (np_array demo_expected) ->
   exp_arr (run resize_nearest demo_decoded demo_expected) = np_array demo_expected) /\
  exists d, diff (run resize_nearest demo_decoded demo_expected) = Some d /\
            shape d = shape (np_array demo_decoded) /\
            rectangular d = true.
Proof.
  apply (difference_has_decoded_shape resize_nearest demo_decoded demo_expected);
    reflexivity.
Defined.

Example difference_demo :
  diff (run resize_nearest demo_decoded demo_expected)
  = Some [[(Finite 9, Finite 18, Finite 27); (Finite 39, Finite 48, Finite 57);
           (Finite 69, Finite 78, Finite 87)]].
Proof. vm_compute. reflexivity. Qed.

End ResizeWitness.

(** ** The comparison scripts: the shift search *)

Section FloatOrder.
Import NumPy.

Lemma Qle_bool_false (x y : Q) : Qle_bool x y = false <-> (y < x)%Q.
Proof.
  split; intros H.
  - destruct (Qlt_le_dec y x) as [L | L]; [exact L |].
    apply Qle_bool_iff in L. congruence.
  - destruct (Qle_bool x y) eqn:E; [| reflexivity].
    apply Qle_bool_iff in E. lra.
Qed.

Lemma fgt_irrefl (a : np_float) : fgt a a = false.
Proof.
  destruct a; simpl; try reflexivity.
  apply negb_false_iff, Qle_bool_iff, Qle_refl.
Qed.

Lemma fgt_trans (a b c : np_float) :
  fgt a b = true -> fgt b c = true -> fgt a c = true.
Proof.
  destruct a, b, c; simpl; try congruence.
  rewrite !negb_true_iff, !Qle_bool_false. lra.
Qed.

Lemma fge_fgt_trans (a b c : np_float) :
  fge a b = true -> fgt b c = true -> fgt a c = true.
Proof.
  destruct a, b, c; simpl; try congruence.
  rewrite !negb_true_iff, !Qle_bool_false, Qle_bool_iff. lra.
Qed.

Lemma fgt_fge (a b : np_float) : fgt a b = true -> fge a b = true.
Proof.
  destruct a, b; simpl; try congruence.
  rewrite negb_true_iff, Qle_bool_false, Qle_bool_iff. lra.
Qed.

End FloatOrder.

Section ShiftSearch.
Import NumPy Compare.

Variable corrcoef : list Z -> list Z -> np_float.
Variable min_len : nat.
Variables dec_row exp_row : row Z.

Local Notation "'qual'" := (qualifies min_len dec_row exp_row).
Local Notation "'corr'" := (corr_at corrcoef dec_row exp_row).

(** On rows of one width the two slices of every iteration have one length:
    the correlation is taken between sequences of equal length. *)
Lemma overlap_lengths (shift : Z) :
  length dec_row = length exp_row ->
  length (fst (overlap shift dec_row exp_row))
  = length (snd (overlap shift dec_row exp_row)).
Proof using Type.
  intros E. unfold overlap. destruct (0 <=? shift); simpl.
  - rewrite length_take, !length_drop. lia.
  - rewrite length_take, !length_drop. lia.
Qed.

Lemma searched_step (lo : Z) (n : nat) (best : Z * np_float) :
  searched corrcoef min_len dec_row exp_row lo n best ->
  searched corrcoef min_len dec_row exp_row lo (S n)
    (shift_step corrcoef min_len dec_row exp_row best (lo + Z.of_nat n)).
Proof using Type.
  set (x := lo + Z.of_nat n).
  assert (split_range : forall s, lo <= s < lo + Z.of_nat (S n) ->
                                  lo <= s < lo + Z.of_nat n \/ s = x) by (intros; lia).
  intros Inv. unfold searched in *. unfold shift_step.
  destruct (qual x) eqn:Q.
  - destruct (fgt (corr x) (snd best)) eqn:G.
    + (* the best pair is replaced *)
      right. simpl.
      assert (Below : forall s, lo <= s < lo + Z.of_nat n -> qual s = true ->
                                fgt (corr s) (snd best) = false).
      { destruct Inv as [[-> H] | (_ & _ & _ & _ & H & _)]; exact H. }
      split; [lia |]. split; [exact Q |]. split; [reflexivity |].
      split; [| split].
      * destruct Inv as [[-> _] | (_ & _ & _ & H & _)]; [exact G |].
        exact (fgt_trans _ _ _ G H).
      * intros s Hs Qs. destruct (split_range s Hs) as [Hs' | ->].
        -- destruct (fgt (corr s) (corr x)) eqn:C; [| reflexivity].
           rewrite <- (Below s Hs' Qs). symmetry. exact (fgt_trans _ _ _ C G).
        -- apply fgt_irrefl.
      * intros s Hs Qs.
        destruct (fge (corr s) (corr x)) eqn:C; [| reflexivity].
        rewrite <- (Below s ltac:(lia) Qs). symmetry. exact (fge_fgt_trans _ _ _ C G).
    + (* the correlation is not greater: nothing changes *)
      destruct Inv as [[-> H] | (H1 & H2 & H3 & H4 & H5 & H6)].
      * left. split; [reflexivity |]. intros s Hs Qs.
        destruct (split_range s Hs) as [Hs' | ->]; [now apply H | exact G].
      * right. repeat split; try assumption; try lia.
        intros s Hs Qs. destruct (split_range s Hs) as [Hs' | ->]; [now apply H5 | exact G].
  - (* the overlap is too short: nothing changes *)
    destruct Inv as [[-> H] | (H1 & H2 & H3 & H4 & H5 & H6)].
    + left. split; [reflexivity |]. intros s Hs Qs.
      destruct (split_range s Hs) as [Hs' | ->]; [now apply H | congruence].
    + right. repeat split; try assumption; try lia.
      intros s Hs Qs. destruct (split_range s Hs) as [Hs' | ->]; [now apply H5 | congruence].
Qed.

Lemma py_range_S (lo : Z) (n : nat) :
  map (fun i => lo + Z.of_nat i) (seq 0 (S n))
  = map (fun i => lo + Z.of_nat i) (seq 0 n) ++ [lo + Z.of_nat n].
Proof using Type. now rewrite seq_S, map_app. Qed.

Lemma searched_prefix (lo : Z) (n : nat) :
  searched corrcoef min_len dec_row exp_row lo n
    (fold_left (shift_step corrcoef min_len dec_row exp_row)
       (map (fun i => lo + Z.of_nat i) (seq 0 n)) (0, Finite (-1))).
Proof using Type.
  induction n as [| n IH].
  - left. split; [reflexivity |]. intros s Hs. lia.
  - rewrite py_range_S, fold_left_app. simpl. now apply searched_step.
Qed.

(** The loop over [range(lo, hi)] establishes [searched] for the whole
    range. *)
Lemma shift_search_searched (lo hi : Z) :
  searched corrcoef min_len dec_row exp_row lo (Z.to_nat (hi - lo))
    (shift_search corrcoef lo hi min_len dec_row exp_row).
Proof using Type. apply searched_prefix. Qed.

End ShiftSearch.

Section HorizontalShift.
Import NumPy Compare.

Lemma In_py_range (lo hi s : Z) : lo <= s < hi -> In s (py_range lo hi).
Proof.
  intros Hs. unfold py_range. apply in_map_iff.
  exists (Z.to_nat (s - lo)). split; [lia |].
  apply in_seq. lia.
Qed.

(** C8, as amended.  For every correlation function and every pair of rows
    the reported shift lies in [-100, 100].  When some shift of the range
    with an overlap of more than 100 pixels has a correlation greater than
    -1, the reported correlation is the one at the reported shift, it is
    the maximum over the shifts of the range with such an overlap, and the
    reported shift is the smallest one attaining it.  When no such shift
    exists, the search reports shift 0 with correlation -1. *)
Theorem horizontal_shift_first_maximum
    (corrcoef : list Z -> list Z -> np_float) (dec_row exp_row : row Z) :
  -100 <= fst (horizontal_shift corrcoef dec_row exp_row) <= 100 /\
  ((exists s, -100 <= s <= 100 /\ qualifies 100 dec_row exp_row s = true /\
              fgt (corr_at corrcoef dec_row exp_row s) (Finite (-1)) = true) ->
   reports_first_maximum corrcoef dec_row exp_row) /\
  ((forall s, -100 <= s <= 100 -> qualifies 100 dec_row exp_row s = true ->
              fgt (corr_at corrcoef dec_row exp_row s) (Finite (-1)) = false) ->
   horizontal_shift corrcoef dec_row exp_row = (0, Finite (-1))).
Proof.
  pose proof (shift_search_searched corrcoef 100 dec_row exp_row (-100) 101) as Inv.
  unfold reports_first_maximum, horizontal_shift, searched in *.
  change (Z.of_nat (Z.to_nat (101 - -100))) with 201 in Inv.
  revert Inv.
  generalize (shift_search corrcoef (-100) 101 100 dec_row exp_row).
  intros [bs bc] Inv. cbn [fst snd] in *.
  destruct Inv as [[Hinit Hnone] | (Hr & Hq & Hc & Hgt & Hmax & Hfirst)].
  - injection Hinit as -> ->. split; [lia |]. split.
    + intros (s & Hs & Qs & Gs). rewrite Hnone in Gs; [discriminate | lia | exact Qs].
    + reflexivity.
  - split; [lia |]. split.
    + intros _.
      split; [lia |]. split; [exists bs; repeat split; (lia || auto) |].
      split; [intros s Hs; apply Hmax; lia |].
      split; [exact Hq |]. split; [now symmetry |].
      intros s Hs. apply Hfirst. lia.
    + intros Hnone. rewrite Hc in Hgt. rewrite Hnone in Hgt; [discriminate | lia | exact Hq].
Qed.

(** On the rising ramp compared with itself every shift has correlation 1:
    the first shift of the range is reported. *)
Example rising_row_search :
  horizontal_shift corrcoef_ref rising_row rising_row = (-100, Finite 1).
Proof. vm_compute. reflexivity. Qed.

Lemma horizontal_shift_first_maximum_witness :
  reports_first_maximum corrcoef_ref rising_row rising_row.
Proof.
  apply (proj1 (proj2 (horizontal_shift_first_maximum corrcoef_ref rising_row rising_row))).
  exists 0. split; [lia |]. split; vm_compute; reflexivity.
Defined.

(** On a black row every overlap has zero variance and every correlation is
    [NaN]: the search keeps its initial pair. *)
Example black_row_search :
  horizontal_shift corrcoef_ref black_row black_row = (0, Finite (-1)).
Proof. vm_compute. reflexivity. Qed.

Lemma black_row_correlations (s : Z) :
  -100 <= s <= 100 -> corr_at corrcoef_ref black_row black_row s = NaN.
Proof.
  intros Hs.
  assert (A : forallb (fun s => match corr_at corrcoef_ref black_row black_row s with
                                | NaN => true | _ => false end)
                      (py_range (-100) 101) = true) by (vm_compute; reflexivity).
  rewrite forallb_forall in A. specialize (A s (In_py_range (-100) 101 s ltac:(lia))).
  destruct (corr_at corrcoef_ref black_row black_row s); congruence.
Qed.

(** C8, as stated, fails on a black row: the reported correlation -1 is the
    correlation of no shift. *)
Lemma black_row_refutes_first_maximum :
  ~ reports_first_maximum corrcoef_ref black_row black_row.
Proof.
  unfold reports_first_maximum. rewrite black_row_search. cbn [fst snd].
  intros (_ & (s & Hs & _ & Hc) & _).
  rewrite (black_row_correlations s Hs) in Hc. discriminate.
Qed.

(** A falling ramp against a rising one: every shift has correlation -1, the
    maximum is attained from shift -100 on, and the search reports shift 0. *)
Example falling_row_search :
  horizontal_shift corrcoef_ref falling_row rising_row = (0, Finite (-1)) /\
  qualifies 100 falling_row rising_row (-100) = true /\
  corr_at corrcoef_ref falling_row rising_row (-100) = Finite (-1).
Proof. vm_compute. repeat split; reflexivity. Qed.

(** Rows of at most 100 pixels: no shift takes part and the initial pair is
    reported, whatever the correlation function. *)
Lemma narrow_rows_search (corrcoef : list Z -> list Z -> np_float)
    (dec_row exp_row : row Z) :
  (length dec_row <= 100)%nat ->
  horizontal_shift corrcoef dec_row exp_row = (0, Finite (-1)).
Proof.
  intros Hw.
  destruct (shift_search_searched corrcoef 100 dec_row exp_row (-100) 101)
    as [[E _] | (_ & Q & _)]; [exact E | exfalso].
  revert Q. generalize (fst (shift_search corrcoef (-100) 101 100 dec_row exp_row)).
  intros s Q. unfold qualifies, overlap in Q. apply Nat.ltb_lt in Q.
  destruct (0 <=? s); cbn [fst] in Q.
  - rewrite length_drop in Q. lia.
  - rewrite length_take in Q. lia.
Qed.

Lemma narrow_rows_search_witness :
  horizontal_shift corrcoef_ref [(1, 2, 3); (4, 5, 6)] [(7, 8, 9); (1, 1, 1)]
  = (0, Finite (-1)).
Proof. apply narrow_rows_search. simpl. lia. Defined.

(** The vertical search is the same loop over [range(-50, 51)]: its result
    is the initial pair or a shift of that range with an overlap of more
    than 50 pixels. *)
Lemma vertical_shift_range (corrcoef : list Z -> list Z -> np_float)
    (dec_col exp_col : row Z) :
  -50 <= fst (vertical_shift corrcoef dec_col exp_col) <= 50.
Proof.
  destruct (shift_search_searched corrcoef 50 dec_col exp_col (-50) 51)
    as [[E _] | (R & _)]; unfold vertical_shift.
  - rewrite E. simpl. lia.
  - change (Z.of_nat (Z.to_nat (51 - -50))) with 101 in R. lia.
Qed.

(** Column 1 of a two-column array, and the IndexError on column 2. *)
Example col_at_demo :
  col_at [[(1, 2, 3); (4, 5, 6)]; [(7, 8, 9); (1, 1, 1)]] 1 = Some [(4, 5, 6); (1, 1, 1)] /\
  col_at [[(1, 2, 3); (4, 5, 6)]; [(7, 8, 9); (1, 1, 1)]] 2 = None.
Proof. split; reflexivity. Qed.

(** The printed result exists as soon as both arrays have a row 100. *)
Lemma best_horizontal_defined (corrcoef : list Z -> list Z -> np_float)
    (dec_arr exp_arr : array3 Z) :
  (100 < length dec_arr)%nat -> (100 < length exp_arr)%nat ->
  exists dec_row exp_row,
    dec_arr !! 100%nat = Some dec_row /\ exp_arr !! 100%nat = Some exp_row /\
    best_horizontal corrcoef dec_arr exp_arr
    = Some (horizontal_shift corrcoef dec_row exp_row).
Proof.
  intros Hd He. unfold best_horizontal, row_at, array3, row in *.
  destruct (lookup_lt_is_Some_2 dec_arr 100 Hd) as [dr Edr].
  destruct (lookup_lt_is_Some_2 exp_arr 100 He) as [er Eer].
  exists dr, er. rewrite Edr, Eer. auto.
Qed.

End HorizontalShift.

(** ** The decoder: intensities stay in [0, 255] *)

Section IntensityRange.
Import Decoder.

Lemma undecoded_in_range : in_range undecoded.
Proof. unfold in_range, undecoded. lia. Qed.

Lemma hold_last_in_range (cols : list (option Z)) (prev : Z) :
  in_range prev ->
  Forall (fun o => forall v, o = Some v -> in_range v) cols ->
  Forall in_range (hold_last prev cols).
Proof.
  intros Hp Hc. revert prev Hp.
  induction Hc as [| o cols Ho Hc IH]; intros prev Hp; simpl.
  - constructor.
  - destruct o as [v |].
    + constructor; [now apply Ho | apply IH; now apply Ho].
    + constructor; [exact Hp | now apply IH].
Qed.

Lemma hold_last_length (cols : list (option Z)) (prev : Z) :
  length (hold_last prev cols) = length cols.
Proof.
  revert prev. induction cols as [| [v |] cols IH]; intros prev; simpl; auto.
Qed.

Lemma decode_channel_in_range (m : ModeDescriptor) (samples : list Q)
    (line_start : nat) (c : ChannelSpec) :
  Forall in_range (decode_channel m samples line_start c).
Proof.
  unfold decode_channel. apply hold_last_in_range; [apply undecoded_in_range |].
  apply Forall_map, Forall_forall. intros j _ v Hv.
  destruct (mean _) as [f |]; simpl in Hv; [| discriminate].
  injection Hv as <-. apply freq_to_intensity_range.
Qed.

(** Every channel sequence of a decoded line has one value per column. *)
Lemma decode_channel_length (m : ModeDescriptor) (samples : list Q)
    (line_start : nat) (c : ChannelSpec) :
  length (decode_channel m samples line_start c) = image_width m.
Proof.
  unfold decode_channel. now rewrite hold_last_length, length_map, length_seq.
Qed.

Lemma decode_line_in_range (m : ModeDescriptor) (samples : list Q)
    (index line_start : nat) :
  scanline_in_range (decode_line m samples index line_start).
Proof.
  unfold scanline_in_range, decode_line. simpl.
  induction (channel_layout m) as [| c layout IH]; simpl.
  - apply map_Forall_empty.
  - apply map_Forall_insert_2; [apply decode_channel_in_range | exact IH].
Qed.

Lemma missing_line_in_range (index : nat) : scanline_in_range (missing_line index).
Proof. apply map_Forall_empty. Qed.

Lemma channel_value_in_range (sl : ScanLine) (c : ChannelId) (j : nat) :
  scanline_in_range sl -> in_range (channel_value sl c j).
Proof.
  intros Hsl. unfold channel_value.
  destruct (channel_values sl !! c) as [vs |] eqn:E; simpl; [| apply undecoded_in_range].
  destruct (vs !! j) as [v |] eqn:Ev; simpl; [| apply undecoded_in_range].
  pose proof (map_Forall_lookup_1 _ _ _ _ Hsl E) as Hvs. simpl in Hvs.
  rewrite Forall_forall in Hvs. apply Hvs. eapply list_elem_of_lookup_2, Ev.
Qed.

(** The colour conversion clamps: whatever the channel values, each
    component of the pixel is in [0, 255]. *)
Lemma ycrcb_to_rgb_in_range (y cr cb : Z) : pixel_in_range (ycrcb_to_rgb y cr cb).
Proof.
  unfold ycrcb_to_rgb, pixel_in_range.
  repeat split; apply Qclamp_range; discriminate.
Qed.

Lemma inject_in_range (v : Z) : in_range v -> (0 <= inject_Z v)%Q /\ (inject_Z v <= 255)%Q.
Proof.
  intros [L U]. split.
  - change 0%Q with (inject_Z 0). now rewrite <- Zle_Qle.
  - change 255%Q with (inject_Z 255). now rewrite <- Zle_Qle.
Qed.

Lemma pixel_of_in_range (cm : ColorModel) (sl : ScanLine) (j : nat) :
  scanline_in_range sl -> pixel_in_range (pixel_of cm sl j).
Proof.
  intros Hsl. destruct cm; simpl.
  - apply ycrcb_to_rgb_in_range.
  - repeat split; apply inject_in_range, channel_value_in_range, Hsl.
Qed.

Lemma render_in_range (fr : Frame) : frame_in_range fr -> raster_in_range (render fr).
Proof.
  intros Hfr. unfold raster_in_range, render.
  apply Forall_map, Forall_forall. intros i _. simpl. unfold render_row.
  destruct (lines fr !! i) as [sl |] eqn:E.
  - apply Forall_map, Forall_forall. intros j _. simpl.
    apply pixel_of_in_range. unfold frame_in_range in Hfr.
    rewrite Forall_forall in Hfr. apply Hfr. eapply list_elem_of_lookup_2, E.
  - apply Forall_replicate.
    repeat split; apply inject_in_range, undecoded_in_range.
Qed.

Lemma new_frame_in_range (m : ModeDescriptor) : frame_in_range (new_frame m).
Proof. constructor. Qed.

Lemma append_line_in_range (fr : Frame) (sl : ScanLine) :
  frame_in_range fr -> scanline_in_range sl -> frame_in_range (append_line fr sl).
Proof.
  intros Hfr Hsl. unfold frame_in_range, append_line. simpl.
  apply Forall_app. split; [exact Hfr | now constructor].
Qed.

Lemma emit_current_in_range (s : Session) :
  session_in_range s -> Forall raster_in_range (emit_current s).
Proof.
  intros [Hc He]. unfold emit_current.
  destruct (current s) as [fr |]; [| exact He].
  apply Forall_app. split; [exact He |].
  constructor; [| constructor]. simpl. apply render_in_range. now apply Hc.
Qed.

Lemma step_in_range (table : gmap Z ModeDescriptor) (samples : list Q)
    (s : Session) (ev : SyncEvent) :
  session_in_range s -> session_in_range (step table samples s ev).
Proof.
  intros Hs. pose proof (emit_current_in_range s Hs) as Hemit.
  pose proof Hs as [Hc He]. unfold step.
  destruct ev as [vis_code | | line_start |].
  - destruct (lookup_mode table vis_code) as [m |]; split; simpl; try assumption.
    + intros fr [= <-]. apply new_frame_in_range.
    + intros fr [=].
  - split; simpl; assumption.
  - destruct (current s) as [fr |] eqn:E; [| exact Hs].
    destruct (frame_full fr); [exact Hs |].
    split; simpl; [| exact He].
    intros fr' [= <-]. apply append_line_in_range; [now apply Hc |].
    apply decode_line_in_range.
  - destruct (current s) as [fr |] eqn:E; [| exact Hs].
    destruct (frame_full fr); [exact Hs |].
    split; simpl; [| exact He].
    intros fr' [= <-]. apply append_line_in_range; [now apply Hc |].
    apply missing_line_in_range.
Qed.

Lemma fold_step_in_range (table : gmap Z ModeDescriptor) (samples : list Q)
    (events : list SyncEvent) (s : Session) :
  session_in_range s ->
  session_in_range (fold_left (step table samples) events s).
Proof.
  revert s. induction events as [| ev events IH]; intros s Hs; simpl.
  - exact Hs.
  - apply IH, step_in_range, Hs.
Qed.

Lemma start_in_range : session_in_range start.
Proof. split; [intros fr [=] | constructor]. Qed.

(** C4.  The frequency-to-intensity mapping and the colour conversion both
    clamp to [0, 255]; hence, whatever the Mode Table, the sample stream and
    the reports of the Sync Detector, every channel value of every ScanLine
    of the Frame under construction and every component of every pixel of
    every raster emitted or delivered lies in [0, 255].  The two [np.clip]
    of the scripts do the same for the pixel values they store: a defined
    element of [corrected] and every element of the difference image lie in
    [0, 255]. *)
Theorem intensities_in_range (table : gmap Z ModeDescriptor) (samples : list Q)
    (events : list SyncEvent) :
  (forall m f, in_range (freq_to_intensity m f)) /\
  (forall y cr cb, pixel_in_range (ycrcb_to_rgb y cr cb)) /\
  (forall fr, current (run_session table samples events) = Some fr ->
              Forall scanline_in_range (lines fr) /\
              raster_in_range (fst (finalize fr))) /\
  Forall raster_in_range (emitted (run_session table samples events)) /\
  (forall rasters diags,
      decode table samples events = Delivered rasters diags ->
      Forall raster_in_range rasters) /\
  (forall dec_arr exp_arr c,
      AnalyzeFreq.corrected dec_arr exp_arr = Some c ->
      Forall (fun o => forall z, o = Some z -> in_range z) (NumPy.flatten c)) /\
  (forall dec_arr exp_arr d,
      Compare.difference dec_arr exp_arr = Some d ->
      Forall (fun o => exists z, o = Some z /\ in_range z)
             (NumPy.flatten (Compare.diff_img d))).
Proof.
  pose proof (fold_step_in_range table samples events start start_in_range) as Hs.
  fold (run_session table samples events) in Hs.
  split; [intros m f; apply freq_to_intensity_range |].
  split; [apply ycrcb_to_rgb_in_range |].
  split; [| split; [| split; [| split]]].
  - intros fr E. split; [now apply Hs |]. apply render_in_range. now apply Hs.
  - apply Hs.
  - intros rasters diags. unfold decode, finish.
    destruct (frames_started _); [discriminate |].
    intros [= <- _]. now apply emit_current_in_range.
  - apply corrected_in_range.
  - apply diff_img_in_range.
Qed.

End IntensityRange.

Section FrameInvariants.
Import Decoder.

Lemma decode_line_widths (m : ModeDescriptor) (samples : list Q)
    (index line_start : nat) :
  map_Forall (fun _ vs => (length vs <= image_width m)%nat)
             (channel_values (decode_line m samples index line_start)).
Proof.
  unfold decode_line. simpl.
  induction (channel_layout m) as [| c layout IH]; simpl.
  - apply map_Forall_empty.
  - apply map_Forall_insert_2; [| exact IH].
    now rewrite decode_channel_length.
Qed.

Lemma new_frame_wf (m : ModeDescriptor) : frame_wf (new_frame m).
Proof.
  unfold frame_wf, new_frame. simpl. split; [lia |]. split; [reflexivity |].
  intros i sl E. discriminate.
Qed.

Lemma append_line_wf (fr : Frame) (sl : ScanLine) :
  frame_wf fr ->
  frame_full fr = false ->
  line_index sl = length (lines fr) ->
  map_Forall (fun _ vs => (length vs <= width fr)%nat) (channel_values sl) ->
  frame_wf (append_line fr sl).
Proof.
  intros (Hh & Hw & Hl) Hfull Hidx Hsl. unfold frame_wf, append_line. simpl.
  unfold frame_full in Hfull. apply Nat.leb_gt in Hfull.
  split; [rewrite length_app; simpl; lia |]. split; [exact Hw |].
  intros i sl' E. apply lookup_app_Some in E as [E | [Hi E]].
  - now apply Hl.
  - destruct (i - length (lines fr))%nat as [| k] eqn:Ek; simpl in E; [| discriminate].
    injection E as <-. split; [lia | exact Hsl].
Qed.

Lemma step_wf (table : gmap Z ModeDescriptor) (samples : list Q)
    (s : Session) (ev : SyncEvent) :
  (forall fr, current s = Some fr -> frame_wf fr) ->
  forall fr, current (step table samples s ev) = Some fr -> frame_wf fr.
Proof.
  intros Hs. unfold step. destruct ev as [vis_code | | line_start |].
  - destruct (lookup_mode table vis_code) as [m |]; simpl; intros fr [= <-].
    apply new_frame_wf.
  - exact Hs.
  - destruct (current s) as [fr |] eqn:E; [| intros fr' E'; congruence].
    destruct (frame_full fr) eqn:F; [intros fr' E'; apply Hs; congruence |]. simpl.
    intros fr' [= <-]. pose proof (Hs fr eq_refl) as W.
    apply append_line_wf; [exact W | exact F | reflexivity |].
    destruct W as (_ & -> & _). apply decode_line_widths.
  - destruct (current s) as [fr |] eqn:E; [| intros fr' E'; congruence].
    destruct (frame_full fr) eqn:F; [intros fr' E'; apply Hs; congruence |]. simpl.
    intros fr' [= <-].
    apply append_line_wf; [now apply Hs | exact F | reflexivity |].
    apply map_Forall_empty.
Qed.

(** Throughout a session the Frame under construction keeps its lines at
    their line indices, has at most [height] of them, and no channel
    sequence is longer than the image width. *)
Lemma session_frame_wf (table : gmap Z ModeDescriptor) (samples : list Q)
    (events : list SyncEvent) (fr : Frame) :
  current (run_session table samples events) = Some fr -> frame_wf fr.
Proof.
  unfold run_session.
  assert (G : forall s, (forall fr, current s = Some fr -> frame_wf fr) ->
                        forall fr, current (fold_left (step table samples) events s) = Some fr ->
                                   frame_wf fr).
  { induction events as [| ev events IH]; intros s Hs; simpl; [exact Hs |].
    apply IH, step_wf, Hs. }
  apply G. intros fr' [=].
Qed.

End FrameInvariants.

Section IntensityRangeWitness.
Import Decoder.

Lemma intensities_in_range_witness :
  exists rasters diags,
    decode demo_table demo_samples demo_events = Delivered rasters diags /\
    Forall raster_in_range rasters.
Proof.
  pose proof (intensities_in_range demo_table demo_samples demo_events)
    as (_ & _ & _ & _ & H & _).
  eexists _, _. split; [vm_compute; reflexivity |].
  apply (H _ [SyncNotFound; UnsupportedMode; InsufficientSamples]).
  vm_compute. reflexivity.
Defined.

(** The demo stream: a scan window without header, an unknown VIS code, a
    known one, one complete line and one partial line.  One raster is
    delivered, black then white on the first row, white then black on the
    second. *)
Example decode_demo :
  match decode demo_table demo_samples demo_events with
  | Delivered rasters diags => Some (map reduced rasters, diags)
  | Fatal _ => None
  end
  = Some ([[[(0, 0, 0); (255, 255, 255)]; [(255, 255, 255); (0, 0, 0)]]]%Q,
          [SyncNotFound; UnsupportedMode; InsufficientSamples]).
Proof. vm_compute. reflexivity. Qed.

End IntensityRangeWitness.

(** ** The decoder: finalize *)

Section Finalize.
Import Decoder.



(** A Frame without lines finalizes to the sentinel throughout. *)
Example finalize_new_frame :
  fst (finalize (new_frame demo_mode))
  = [[(128, 128, 128); (128, 128, 128)]; [(128, 128, 128); (128, 128, 128)]]%Q.
Proof. reflexivity. Qed.

End Finalize.

(** ** The decoder: the decode session *)

Section SessionFacts.
Import Decoder.

Variable table : gmap Z ModeDescriptor.
Variable samples : list Q.



(** What raises each of the four errors, and what it leaves behind: the
    error is recorded, the Frames started and the rasters emitted stay, and
    for the two line errors the line is kept with its completeness flag. *)
Lemma step_sync_not_found (s : Session) :
  step table samples s HeaderScanExpired
  = {| current := current s; emitted := emitted s;
       frames_started := frames_started s;
       diagnostics := diagnostics s ++ [SyncNotFound] |}.
Proof using Type. reflexivity. Qed.

Lemma step_unsupported_mode (s : Session) (vis_code : Z) :
  lookup_mode table vis_code = None ->
  step table samples s (HeaderFound vis_code)
  = {| current := None; emitted := emit_current s;
       frames_started := frames_started s;
       diagnostics := diagnostics s ++ [UnsupportedMode] |}.
Proof using Type. intros E. unfold step. now rewrite E. Qed.

Lemma step_line_timeout (s : Session) (fr : Frame) :
  current s = Some fr -> frame_full fr = false ->
  exists sl,
    completeness sl = Missing /\ line_index sl = length (lines fr) /\
    step table samples s LineSyncExpired
    = {| current := Some (append_line fr sl); emitted := emitted s;
         frames_started := frames_started s;
         diagnostics := diagnostics s ++ [LineTimeout] |}.
Proof using Type.
  intros E F. exists (missing_line (length (lines fr))).
  unfold step. now rewrite E, F.
Qed.

Lemma step_insufficient_samples (s : Session) (fr : Frame) (line_start : nat) :
  current s = Some fr -> frame_full fr = false ->
  forallb (enough_samples samples line_start) (channel_layout (mode fr)) = false ->
  exists sl,
    completeness sl = Partial /\ line_index sl = length (lines fr) /\
    step table samples s (LineSync line_start)
    = {| current := Some (append_line fr sl); emitted := emitted s;
         frames_started := frames_started s;
         diagnostics := diagnostics s ++ [InsufficientSamples] |}.
Proof using Type.
  intros E F N. exists (decode_line (mode fr) samples (length (lines fr)) line_start).
  unfold step. rewrite E, F. simpl. now rewrite N.
Qed.



End SessionFacts.

Section SessionWitness.
Import Decoder.


End SessionWitness.

(* ===================================================================== *)
(** * Part III.  The rest of the scripts                                  *)
(* ===================================================================== *)

(** ** The vertical search and the geometry of the overlaps *)

Section VerticalShift.
Import NumPy Compare.

Lemma flatten_row_length {A} (r : row A) : length (flatten_row r) = (3 * length r)%nat.
Proof.
  induction r as [| [[x y] z] r IH]; [reflexivity |].
  unfold flatten_row in *. simpl. rewrite IH. lia.
Qed.

(** The vertical search, [range(-50, 51)] with overlaps of more than 50
    pixels: the reported shift lies in [-50, 50]; when some shift that takes
    part has a correlation greater than -1, the reported pair is a shift
    that takes part with its correlation, no shift that takes part has a
    greater correlation and every smaller one that takes part has a smaller
    correlation or NaN; otherwise the initial pair (0, -1) is reported. *)
Theorem vertical_shift_first_maximum
    (corrcoef : list Z -> list Z -> np_float) (dec_col exp_col : row Z) :
  -50 <= fst (vertical_shift corrcoef dec_col exp_col) <= 50 /\
  ((exists s, -50 <= s <= 50 /\ qualifies 50 dec_col exp_col s = true /\
              fgt (corr_at corrcoef dec_col exp_col s) (Finite (-1)) = true) ->
   qualifies 50 dec_col exp_col (fst (vertical_shift corrcoef dec_col exp_col)) = true /\
   corr_at corrcoef dec_col exp_col (fst (vertical_shift corrcoef dec_col exp_col))
   = snd (vertical_shift corrcoef dec_col exp_col) /\
   (forall s, -50 <= s <= 50 -> qualifies 50 dec_col exp_col s = true ->
              fgt (corr_at corrcoef dec_col exp_col s)
                  (snd (vertical_shift corrcoef dec_col exp_col)) = false) /\
   (forall s, -50 <= s < fst (vertical_shift corrcoef dec_col exp_col) ->
              qualifies 50 dec_col exp_col s = true ->
              fge (corr_at corrcoef dec_col exp_col s)
                  (snd (vertical_shift corrcoef dec_col exp_col)) = false)) /\
  ((forall s, -50 <= s <= 50 -> qualifies 50 dec_col exp_col s = true ->
              fgt (corr_at corrcoef dec_col exp_col s) (Finite (-1)) = false) ->
   vertical_shift corrcoef dec_col exp_col = (0, Finite (-1))).
Proof.
  pose proof (shift_search_searched corrcoef 50 dec_col exp_col (-50) 51) as Inv.
  unfold vertical_shift, searched in *.
  change (Z.of_nat (Z.to_nat (51 - -50))) with 101 in Inv.
  revert Inv. generalize (shift_search corrcoef (-50) 51 50 dec_col exp_col).
  intros [bs bc] Inv. cbn [fst snd] in *.
  destruct Inv as [[Hinit Hnone] | (Hr & Hq & Hc & Hgt & Hmax & Hfirst)].
  - injection Hinit as -> ->. split; [lia |]. split; [| reflexivity].
    intros (s & Hs & Qs & Gs). rewrite Hnone in Gs; [discriminate | lia | exact Qs].
  - split; [lia |]. split.
    + intros _. split; [exact Hq |]. split; [now symmetry |].
      split; [intros s Hs; apply Hmax; lia | intros s Hs; apply Hfirst; lia].
    + intros Hnone. rewrite Hc in Hgt.
      rewrite Hnone in Hgt; [discriminate | lia | exact Hq].
Qed.

Lemma vertical_shift_first_maximum_witness :
  qualifies 50 rising_row rising_row
    (fst (vertical_shift corrcoef_ref rising_row rising_row)) = true /\
  corr_at corrcoef_ref rising_row rising_row
    (fst (vertical_shift corrcoef_ref rising_row rising_row))
  = snd (vertical_shift corrcoef_ref rising_row rising_row) /\
  (forall s, -50 <= s <= 50 -> qualifies 50 rising_row rising_row s = true ->
             fgt (corr_at corrcoef_ref rising_row rising_row s)
                 (snd (vertical_shift corrcoef_ref rising_row rising_row)) = false) /\
  (forall s, -50 <= s < fst (vertical_shift corrcoef_ref rising_row rising_row) ->
             qualifies 50 rising_row rising_row s = true ->
             fge (corr_at corrcoef_ref rising_row rising_row s)
                 (snd (vertical_shift corrcoef_ref rising_row rising_row)) = false).
Proof.
  apply (proj1 (proj2 (vertical_shift_first_maximum corrcoef_ref rising_row rising_row))).
  exists 0. split; [lia |]. split; vm_compute; reflexivity.
Defined.

(** On two rows of one width [w] the slices of a shift [s] both have
    [w - |s|] pixels (none when [|s| >= w]), so the two flattened sequences
    handed to the correlation have one length; and the shift takes part in
    a search exactly when [w - |s|] exceeds the minimum overlap. *)
Theorem overlap_geometry (min_len : nat) (shift : Z) (dec_row exp_row : row Z) :
  length dec_row = length exp_row ->
  length (fst (overlap shift dec_row exp_row))
  = (length dec_row - Z.to_nat (Z.abs shift))%nat /\
  length (snd (overlap shift dec_row exp_row))
  = (length dec_row - Z.to_nat (Z.abs shift))%nat /\
  length (flatten_row (fst (overlap shift dec_row exp_row)))
  = length (flatten_row (snd (overlap shift dec_row exp_row))) /\
  (qualifies min_len dec_row exp_row shift = true <->
   (min_len + Z.to_nat (Z.abs shift) < length dec_row)%nat).
Proof.
  intros E.
  assert (L : length (fst (overlap shift dec_row exp_row))
              = (length dec_row - Z.to_nat (Z.abs shift))%nat /\
              length (snd (overlap shift dec_row exp_row))
              = (length dec_row - Z.to_nat (Z.abs shift))%nat).
  { unfold overlap. destruct (0 <=? shift) eqn:S; cbn [fst snd].
    - apply Z.leb_le in S. rewrite Z.abs_eq by lia.
      rewrite length_take, !length_drop. lia.
    - apply Z.leb_gt in S. rewrite Z.abs_neq by lia.
      rewrite length_take, !length_drop. lia. }
  destruct L as [Ld Le]. split; [exact Ld |]. split; [exact Le |]. split.
  - rewrite !flatten_row_length. lia.
  - unfold qualifies. rewrite Nat.ltb_lt, Ld. lia.
Qed.

Lemma overlap_geometry_witness :
  length (fst (overlap (-3) rising_row rising_row)) = 199%nat /\
  (qualifies 100 rising_row rising_row (-3) = true <-> (100 + 3 < 202)%nat).
Proof.
  destruct (overlap_geometry 100 (-3) rising_row rising_row eq_refl) as (L & _ & _ & Q).
  split; [exact L | exact Q].
Defined.

End VerticalShift.

(** ** Index bounds of the comparison scripts *)

Section IndexBounds.
Import NumPy Compare CompareOutput.

Lemma rectangular_lookup {A} (arr : array3 A) (i : nat) (r : row A) :
  rectangular arr = true -> arr !! i = Some r -> length r = snd (fst (shape arr)).
Proof.
  intros R E. apply rectangular_rows in R. rewrite Forall_forall in R.
  apply R. eapply list_elem_of_lookup_2, E.
Qed.

(** In a rectangular array the pixel at row [y], column [x] exists exactly
    when both indices are inside the shape. *)
Lemma pixel_lookup_is_Some {A} (arr : array3 A) (y x : nat) :
  rectangular arr = true ->
  is_Some (arr !! y ≫= fun r => r !! x)
  <-> (y < fst (fst (shape arr)) /\ x < snd (fst (shape arr)))%nat.
Proof.
  intros R. unfold array3, row in *. split.
  - intros [p E]. destruct (arr !! y) as [r |] eqn:Er; [| discriminate]. simpl in E.
    pose proof (rectangular_lookup arr y r R Er) as W.
    apply lookup_lt_Some in Er. apply lookup_lt_Some in E.
    split; [exact Er | rewrite <- W; exact E].
  - intros [Hy Hx]. unfold shape in Hy. simpl in Hy.
    destruct (lookup_lt_is_Some_2 arr y Hy) as [r Er]. rewrite Er. simpl.
    apply lookup_lt_is_Some_2. rewrite (rectangular_lookup arr y r R Er). exact Hx.
Qed.

(** The three indexing steps of compare_images.py on a rectangular array
    with at least one row: row 100 exists exactly when the array has more
    than 100 rows, column 320 exactly when it has more than 320 columns, and
    the four sample pixels exactly when it has more than 300 rows and more
    than 400 columns.  In every other case the step is an IndexError. *)
Theorem index_steps_defined (arr : array3 Z) :
  rectangular arr = true ->
  arr <> [] ->
  (is_Some (row_at arr 100) <-> (100 < fst (fst (shape arr)))%nat) /\
  (is_Some (col_at arr 320) <-> (320 < snd (fst (shape arr)))%nat) /\
  (is_Some (sample_pixels arr)
   <-> (300 < fst (fst (shape arr)) /\ 400 < snd (fst (shape arr)))%nat).
Proof.
  intros R Hne. split; [| split].
  - unfold row_at, shape. simpl. apply lookup_lt_is_Some.
  - unfold col_at. etrans; [apply mapM_is_Some |]. split.
    + intros F. destruct arr as [| r arr]; [congruence |].
      inversion F as [| ? ? Hr _]; subst. simpl in Hr.
      apply lookup_lt_is_Some in Hr. exact Hr.
    + intros Hw. apply Forall_forall. intros r Hr. simpl.
      apply list_elem_of_lookup_1 in Hr as [i Hi].
      apply lookup_lt_is_Some. now rewrite (rectangular_lookup arr i r R Hi).
  - unfold sample_pixels. etrans; [apply mapM_is_Some |]. unfold sample_points.
    rewrite !Forall_cons, Forall_nil. unfold compose. cbn [fst snd].
    rewrite !(pixel_lookup_is_Some arr _ _ R).
    generalize (fst (fst (shape arr))) (snd (fst (shape arr))). intros h w. lia.
Qed.

Lemma index_steps_defined_witness :
  (is_Some (row_at demo_decoded 100) <-> (100 < fst (fst (shape demo_decoded)))%nat) /\
  (is_Some (col_at demo_decoded 320) <-> (320 < snd (fst (shape demo_decoded)))%nat) /\
  (is_Some (sample_pixels demo_decoded)
   <-> (300 < fst (fst (shape demo_decoded)) /\ 400 < snd (fst (shape demo_decoded)))%nat).
Proof.
  apply (index_steps_defined demo_decoded); [reflexivity | discriminate].
Defined.

End IndexBounds.

(** ** The side-by-side image *)

Section SideBySide.
Import NumPy Compare PIL CompareOutput.

Lemma paste_lookup (canvas im : image) (x y i : nat) :
  paste canvas im (x, y) !! i
  = (fun r =>
       imap (fun j p =>
               if Nat.leb y i && Nat.leb x j
               then default p (im !! (i - y)%nat ≫= fun r' => r' !! (j - x)%nat)
               else p) r) <$> canvas !! i.
Proof. unfold paste. exact (list_lookup_imap _ canvas i). Qed.

Lemma new_image_lookup (w h i : nat) :
  new_image (w, h) !! i
  = if Nat.ltb i h then Some (replicate w (0, 0, 0)) else None.
Proof.
  unfold new_image. destruct (Nat.ltb i h) eqn:E.
  - apply Nat.ltb_lt in E. now apply lookup_replicate_2.
  - apply Nat.ltb_ge in E. now apply lookup_replicate_None.
Qed.

(** A row of [w] pixels pasted at column 0 and another at column [w] cover a
    black row of [w * 2] pixels: the result is the two rows side by side. *)
Lemma paste_two_rows (w : nat) (d r : row Z) :
  length d = w -> length r = w ->
  imap (fun j p => if Nat.leb w j then default p (r !! (j - w)%nat) else p)
       (imap (fun j p => default p (d !! (j - 0)%nat)) (replicate (w * 2) (0, 0, 0)))
  = d ++ r.
Proof.
  unfold row, pixel in *. intros Ld Lr. apply list_eq. intros j.
  rewrite !list_lookup_imap.
  destruct (Nat.lt_ge_cases j (w * 2)) as [Hj | Hj].
  - rewrite lookup_replicate_2 by exact Hj. simpl.
    destruct (Nat.leb w j) eqn:Wj.
    + apply Nat.leb_le in Wj. rewrite lookup_app_r by lia. rewrite Ld.
      destruct (lookup_lt_is_Some_2 r (j - w)) as [p Ep]; [lia |].
      now rewrite Ep.
    + apply Nat.leb_gt in Wj. rewrite lookup_app_l by lia.
      rewrite Nat.sub_0_r.
      destruct (lookup_lt_is_Some_2 d j) as [p Ep]; [lia |].
      now rewrite Ep.
  - rewrite (proj1 (lookup_replicate_None _ _ _) Hj). simpl.
    symmetry. apply lookup_ge_None. rewrite length_app. lia.
Qed.

Variable resize : image -> nat * nat -> image.

(** The image saved as comparison.png (comparison_aligned.png): for a
    rectangular decoded image and a [resize] that returns a rectangular
    image of the requested size, every row of the comparison is the row of
    the decoded image followed by the row of the resized expected image;
    none of the black canvas is left, and the image is twice as wide as the
    decoded one and as high. *)
Theorem comparison_side_by_side (decoded expected : image) :
  rectangular decoded = true ->
  img_size (resize expected (img_size decoded)) = img_size decoded ->
  rectangular (resize expected (img_size decoded)) = true ->
  comparison_image resize decoded expected
  = zip_with app decoded (resize expected (img_size decoded)) /\
  length (comparison_image resize decoded expected) = snd (img_size decoded) /\
  Forall (fun r => length r = (fst (img_size decoded) * 2)%nat)
         (comparison_image resize decoded expected).
Proof using Type.
  intros Rd Hsz Rr. unfold comparison_image.
  remember (resize expected (img_size decoded)) as R eqn:ER.
  unfold image, array3, row, pixel in *.
  assert (HR : length R = length decoded /\ snd (fst (shape R)) = snd (fst (shape decoded))).
  { unfold img_size, shape in Hsz. simpl in Hsz. unfold shape. simpl.
    injection Hsz as E1 E2. auto. }
  destruct HR as [LR WR].
  assert (Esz : img_size decoded = (snd (fst (shape decoded)), length decoded))
    by reflexivity.
  rewrite Esz. cbn [fst snd]. set (w := snd (fst (shape decoded))) in *.
  assert (Main : paste (paste (new_image ((w * 2)%nat, length decoded)) decoded (0%nat, 0%nat))
                       R (w, 0%nat)
                 = zip_with app decoded R).
  { apply list_eq. intros i. rewrite !paste_lookup, new_image_lookup.
    rewrite lookup_zip_with.
    destruct (Nat.lt_ge_cases i (length decoded)) as [Hi | Hi].
    - rewrite (proj2 (Nat.ltb_lt _ _) Hi). simpl.
      destruct (lookup_lt_is_Some_2 decoded i Hi) as [d Ed].
      destruct (lookup_lt_is_Some_2 R i ltac:(lia)) as [r Er].
      unfold image, array3, row, pixel. rewrite Nat.sub_0_r, Ed, Er. simpl. f_equal.
      apply (paste_two_rows w d r).
      + exact (rectangular_lookup decoded i d Rd Ed).
      + rewrite (rectangular_lookup R i r Rr Er). exact WR.
    - rewrite (proj2 (Nat.ltb_ge _ _) Hi). simpl.
      now rewrite (lookup_ge_None_2 decoded i Hi). }
  rewrite Main. split; [reflexivity |]. split.
  - rewrite length_zip_with. lia.
  - apply Forall_forall. intros row Hrow.
    apply list_elem_of_lookup_1 in Hrow as [i Hi].
    apply lookup_zip_with_Some in Hi as (d & r & -> & Ed & Er).
    pose proof (rectangular_lookup decoded i d Rd Ed) as Hd.
    pose proof (rectangular_lookup R i r Rr Er) as Hr.
    unfold row, pixel in *. rewrite length_app, Hd, Hr, WR. fold w. lia.
Qed.

End SideBySide.

Section SideBySideWitness.
Import NumPy Compare PIL CompareOutput.

Lemma comparison_side_by_side_witness :
  comparison_image resize_nearest demo_decoded demo_expected
  = zip_with app demo_decoded (resize_nearest demo_expected (img_size demo_decoded)) /\
  length (comparison_image resize_nearest demo_decoded demo_expected)
  = snd (img_size demo_decoded) /\
  Forall (fun r => length r = (fst (img_size demo_decoded) * 2)%nat)
         (comparison_image resize_nearest demo_decoded demo_expected).
Proof.
  apply (comparison_side_by_side resize_nearest demo_decoded demo_expected);
    reflexivity.
Defined.

Example comparison_demo :
  comparison_image resize_nearest demo_decoded demo_expected
  = [[(10, 20, 30); (40, 50, 60); (70, 80, 90); (1, 2, 3); (1, 2, 3); (1, 2, 3)]].
Proof. reflexivity. Qed.

End SideBySideWitness.

(** ** The difference statistics *)

Section DiffStatistics.
Import NumPy Compare Reduce CompareOutput.

Lemma flatten_row_inj {A} (r r' : row A) : flatten_row r = flatten_row r' -> r = r'.
Proof.
  revert r'. induction r as [| [[x y] z] r IH]; intros [| [[x' y'] z'] r'];
    unfold flatten_row; simpl; try discriminate; try reflexivity.
  intros [= -> -> -> E]. f_equal. now apply IH.
Qed.

Lemma flatten_row_zip {A B C} (f : A -> B -> C) (r : row A) (r' : row B) :
  flatten_row (zip_with (px_zip f) r r') = zip_with f (flatten_row r) (flatten_row r').
Proof.
  revert r'. induction r as [| [[x y] z] r IH]; intros [| [[x' y'] z'] r'];
    try reflexivity.
  unfold flatten_row in *. simpl. now rewrite IH.
Qed.

(** Two rectangular arrays of one shape have rows of equal lengths. *)
Lemma same_shape_rows {A B} (a : array3 A) (b : array3 B) :
  rectangular a = true -> rectangular b = true -> shape a = shape b ->
  Forall2 (fun r r' => length r = length r') a b.
Proof.
  intros Ra Rb E. apply Forall2_same_length_lookup_2.
  - unfold shape in E. now injection E.
  - intros i r r' Hr Hr'.
    rewrite (rectangular_lookup a i r Ra Hr), (rectangular_lookup b i r' Rb Hr').
    now rewrite E.
Qed.

Lemma flatten_zip {A B C} (f : A -> B -> C) (a : array3 A) (b : array3 B) :
  Forall2 (fun r r' => length r = length r') a b ->
  flatten (zip_with (zip_with (px_zip f)) a b) = zip_with f (flatten a) (flatten b) /\
  length (flatten a) = length (flatten b).
Proof.
  induction 1 as [| r r' a b Hr _ [IH1 IH2]]; [split; reflexivity |].
  unfold flatten in *. simpl. rewrite !length_app, !flatten_row_length, Hr, IH2.
  split; [| reflexivity].
  rewrite zip_with_app by (rewrite !flatten_row_length; lia).
  now rewrite IH1, flatten_row_zip.
Qed.

Lemma flatten_inj {A} (a b : array3 A) :
  Forall2 (fun r r' => length r = length r') a b -> flatten a = flatten b -> a = b.
Proof.
  induction 1 as [| r r' a b Hr _ IH]; [reflexivity |].
  unfold flatten in *. simpl. intros E.
  apply app_inj_1 in E as [E1 E2]; [| rewrite !flatten_row_length; lia].
  f_equal; [now apply flatten_row_inj | now apply IH].
Qed.

Lemma Qabs_diff (d e : Z) :
  (Qabs (inject_Z d + - inject_Z e) == inject_Z (Z.abs (d - e)))%Q.
Proof.
  unfold Qeq, inject_Z, Qabs, Qplus, Qopp. simpl. lia.
Qed.

Lemma fsum_diffs (xs ys : list Z) (acc : Q) (A : Z) :
  (acc == inject_Z A)%Q ->
  exists q,
    fold_left fadd
      (zip_with (fun d e => fabs (fsub (of_uint8 d) (of_uint8 e))) xs ys) (Finite acc)
    = Finite q /\
    (q == inject_Z (A + sum_Z (abs_diffs xs ys)))%Q.
Proof.
  revert ys acc A. induction xs as [| x xs IH]; intros ys acc A E.
  - exists acc. split; [reflexivity |]. simpl. now rewrite Z.add_0_r.
  - destruct ys as [| y ys].
    + exists acc. split; [reflexivity |]. simpl. now rewrite Z.add_0_r.
    + simpl.
      destruct (IH ys (acc + Qabs (inject_Z x + - inject_Z y))%Q (A + Z.abs (x - y)))
        as (q & Hq & Eq).
      { rewrite E, Qabs_diff, <- inject_Z_plus. reflexivity. }
      exists q. split; [exact Hq |]. rewrite Eq.
      unfold abs_diffs, sum_Z. simpl. now rewrite Z.add_assoc.
Qed.

Lemma fmax_diffs (xs ys : list Z) (a : Q) (A : Z) :
  (a == inject_Z A)%Q ->
  exists q,
    fold_left fmaximum
      (zip_with (fun d e => fabs (fsub (of_uint8 d) (of_uint8 e))) xs ys) (Finite a)
    = Finite q /\
    (q == inject_Z (fold_left Z.max (abs_diffs xs ys) A))%Q.
Proof.
  revert ys a A. induction xs as [| x xs IH]; intros ys a A E.
  - exists a. split; [reflexivity | exact E].
  - destruct ys as [| y ys]; [exists a; split; [reflexivity | exact E] |].
    cbn [zip_with fold_left]. set (v := Qabs (inject_Z x + - inject_Z y)).
    assert (Ev : (v == inject_Z (Z.abs (x - y)))%Q) by apply Qabs_diff.
    change (fmaximum (Finite a) (fabs (fsub (of_uint8 x) (of_uint8 y))))
      with (if Qle_bool v a then Finite a else Finite v).
    change (abs_diffs (x :: xs) (y :: ys)) with (Z.abs (x - y) :: abs_diffs xs ys).
    cbn [fold_left].
    destruct (Qle_bool v a) eqn:L.
    + apply Qle_bool_iff in L. rewrite E, Ev, <- Zle_Qle in L.
      destruct (IH ys a (Z.max A (Z.abs (x - y)))) as (q & Hq & Eq).
      { rewrite Z.max_l by lia. exact E. }
      exists q. split; assumption.
    + apply Qle_bool_false in L. rewrite E, Ev, <- Zlt_Qlt in L.
      destruct (IH ys v (Z.max A (Z.abs (x - y)))) as (q & Hq & Eq).
      { rewrite Z.max_r by lia. exact Ev. }
      exists q. split; assumption.
Qed.

Lemma abs_diffs_range (xs ys : list Z) :
  Forall (fun v => 0 <= v <= 255) xs -> Forall (fun v => 0 <= v <= 255) ys ->
  Forall (fun v => 0 <= v <= 255) (abs_diffs xs ys).
Proof.
  intros Hx. revert ys. induction Hx as [| x xs Bx _ IH]; intros ys Hy; [constructor |].
  destruct Hy as [| y ys By Hy]; [constructor |].
  unfold abs_diffs in *. simpl. constructor; [lia | now apply IH].
Qed.

Lemma abs_diffs_zero (xs ys : list Z) :
  length xs = length ys ->
  (Forall (fun v => v = 0) (abs_diffs xs ys) <-> xs = ys).
Proof.
  revert ys. induction xs as [| x xs IH]; intros [| y ys] L; simpl in L; try discriminate.
  - split; [reflexivity | constructor].
  - unfold abs_diffs in *. simpl. rewrite Forall_cons, (IH ys) by lia. split.
    + intros [H ->]. f_equal. lia.
    + intros [= -> ->]. split; [lia | reflexivity].
Qed.

Lemma sum_Z_bounds (l : list Z) (hi : Z) :
  Forall (fun v => 0 <= v <= hi) l ->
  0 <= sum_Z l <= Z.of_nat (length l) * hi /\
  (sum_Z l = 0 <-> Forall (fun v => v = 0) l).
Proof.
  induction 1 as [| v l Bv _ [IH1 IH2]].
  - simpl. split; [lia |]. split; [constructor | reflexivity].
  - unfold sum_Z in *. simpl. split; [lia |]. rewrite Forall_cons. split.
    + intros E. split; [lia | apply IH2; lia].
    + intros [-> F]. apply IH2 in F. lia.
Qed.

Lemma sum_Z_le_max (l : list Z) (M : Z) :
  Forall (fun v => v <= M) l -> sum_Z l <= Z.of_nat (length l) * M.
Proof.
  induction 1 as [| v l Hv _ IH]; [simpl; lia |].
  unfold sum_Z in *. cbn [fold_right length]. lia.
Qed.

(** [diff.mean()] and [diff.max()] for two rectangular [uint8] arrays of one
    shape with at least one pixel: both are finite; the mean is the sum of
    the absolute differences over their number; 0 <= mean <= max <= 255; and
    the mean, like the maximum, is 0 exactly when the two arrays are
    equal. *)
Theorem diff_statistics (dec_arr exp_arr : array3 Z) :
  is_uint8_array dec_arr = true -> is_uint8_array exp_arr = true ->
  rectangular dec_arr = true -> rectangular exp_arr = true ->
  shape dec_arr = shape exp_arr ->
  flatten dec_arr <> [] ->
  exists mean mx,
    mean_abs_diff dec_arr exp_arr = Some (Finite mean) /\
    max_diff dec_arr exp_arr = Some (Finite mx) /\
    (mean == inject_Z (sum_Z (abs_diffs (flatten dec_arr) (flatten exp_arr)))
             / inject_Z (Z.of_nat (length (flatten dec_arr))))%Q /\
    (0 <= mean)%Q /\ (mean <= mx)%Q /\ (mx <= 255)%Q /\
    ((mean == 0)%Q <-> dec_arr = exp_arr) /\
    ((mx == 0)%Q <-> dec_arr = exp_arr).
Proof.
  intros Ud Ue Rd Re Esh Hne.
  pose proof (same_shape_rows dec_arr exp_arr Rd Re Esh) as Rows.
  destruct (flatten_zip (fun d e => fabs (fsub (of_uint8 d) (of_uint8 e)))
              dec_arr exp_arr Rows) as [Efl Elen].
  set (xs := flatten dec_arr) in *. set (ys := flatten exp_arr) in *.
  set (ds := abs_diffs xs ys).
  assert (Bx : Forall (fun v => 0 <= v <= 255) xs).
  { apply Forall_forall. intros v Hv. apply (is_uint8_array_In dec_arr v Ud).
    now apply list_elem_of_In. }
  assert (By : Forall (fun v => 0 <= v <= 255) ys).
  { apply Forall_forall. intros v Hv. apply (is_uint8_array_In exp_arr v Ue).
    now apply list_elem_of_In. }
  pose proof (abs_diffs_range xs ys Bx By) as Bd. fold ds in Bd.
  assert (Ld : length ds = length xs).
  { unfold ds, abs_diffs. rewrite length_zip_with. lia. }
  assert (Lz : length (zip_with (fun d e => fabs (fsub (of_uint8 d) (of_uint8 e))) xs ys)
               = length xs) by (rewrite length_zip_with; lia).
  assert (Npos : 0 < Z.of_nat (length xs)).
  { destruct xs; [congruence | simpl; lia]. }
  destruct (sum_Z_bounds ds 255 Bd) as [[S0 S1] Szero]. rewrite Ld in S1.
  assert (Zero : Forall (fun v => v = 0) ds <-> dec_arr = exp_arr).
  { unfold ds. rewrite (abs_diffs_zero xs ys Elen). split.
    - apply flatten_inj, Rows.
    - now intros ->. }
  (* the mean *)
  destruct (fsum_diffs xs ys 0 0 (Qeq_refl _)) as (sq & Hsq & Esq).
  rewrite Z.add_0_l in Esq. fold ds in Esq.
  assert (NQ : ~ (inject_Z (Z.of_nat (length xs)) == 0)%Q).
  { unfold Qeq. simpl. lia. }
  assert (NposQ : (0 < inject_Z (Z.of_nat (length xs)))%Q).
  { change 0%Q with (inject_Z 0). now rewrite <- Zlt_Qlt. }
  (* the maximum *)
  assert (Hmax : exists M, In M ds /\ Forall (fun v => v <= M) ds /\
                   exists mq, fmax (zip_with (fun d e => fabs (fsub (of_uint8 d) (of_uint8 e)))
                                     xs ys) = Some (Finite mq) /\
                              (mq == inject_Z M)%Q).
  { destruct xs as [| x xs']; [congruence |]. destruct ys as [| y ys']; [discriminate |].
    destruct (fmax_diffs xs' ys' (Qabs (inject_Z x + - inject_Z y)) (Z.abs (x - y))
                (Qabs_diff x y)) as (mq & Hmq & Emq).
    destruct (fold_max_spec (abs_diffs xs' ys') (Z.abs (x - y))) as (M1 & M2 & M3).
    exists (fold_left Z.max (abs_diffs xs' ys') (Z.abs (x - y))).
    split; [exact M3 |].
    split; [exact (Forall_cons_2 (fun v => v <= _) _ _ M1 M2) |].
    exists mq. split; [exact (f_equal Some Hmq) | exact Emq]. }
  destruct Hmax as (M & MIn & MUp & mq & Hmq & Emq).
  assert (BM : 0 <= M <= 255).
  { rewrite Forall_forall in Bd. apply Bd. now apply list_elem_of_In. }
  pose proof (sum_Z_le_max ds M MUp) as SM. rewrite Ld in SM.
  assert (Hdiff : difference dec_arr exp_arr
                  = Some (zip_with (zip_with (px_zip
                            (fun d e => fabs (fsub (of_uint8 d) (of_uint8 e)))))
                            dec_arr exp_arr)).
  { unfold difference, azip. now rewrite (proj2 (shape_eqb_eq _ _) Esh). }
  exists (sq / inject_Z (Z.of_nat (length xs)))%Q, mq.
  split; [| split; [| split; [| split; [| split; [| split; [| split]]]]]].
  - assert (H : fmean (flatten (zip_with (zip_with (px_zip
                  (fun d e => fabs (fsub (of_uint8 d) (of_uint8 e))))) dec_arr exp_arr))
                = Finite (sq / inject_Z (Z.of_nat (length xs)))).
    { rewrite Efl. unfold fmean, fsum. rewrite Hsq, Lz. unfold fdiv.
      destruct (Qeq_bool (inject_Z (Z.of_nat (length xs))) 0) eqn:Q0; [| reflexivity].
      apply Qeq_bool_iff in Q0. contradiction. }
    unfold mean_abs_diff. rewrite Hdiff. exact (f_equal Some H).
  - unfold max_diff. rewrite Hdiff. cbn [mbind option_bind]. now rewrite Efl.
  - now rewrite Esq.
  - rewrite Esq. apply Qle_shift_div_l; [exact NposQ |].
    rewrite Qmult_0_l. change 0%Q with (inject_Z 0). now rewrite <- Zle_Qle.
  - rewrite Esq, Emq. apply Qle_shift_div_r; [exact NposQ |].
    rewrite <- inject_Z_mult, <- Zle_Qle. lia.
  - rewrite Emq. change 255%Q with (inject_Z 255). rewrite <- Zle_Qle. lia.
  - rewrite <- Zero, <- Szero, Esq. split.
    + intros E.
      assert (E' : (inject_Z (sum_Z ds) == 0 * inject_Z (Z.of_nat (length xs)))%Q).
      { rewrite <- E. field. exact NQ. }
      rewrite Qmult_0_l in E'. unfold Qeq in E'. simpl in E'. lia.
    + intros ->. field. exact NQ.
  - rewrite <- Zero, Emq. split.
    + intros E. unfold Qeq in E. simpl in E. assert (M = 0) by lia. subst M.
      rewrite Forall_forall in MUp, Bd. apply Forall_forall. intros v Hv.
      specialize (MUp v Hv). specialize (Bd v Hv). lia.
    + intros F. rewrite Forall_forall in F.
      rewrite (F M) by (now apply list_elem_of_In). reflexivity.
Qed.

Lemma diff_statistics_witness :
  exists mean mx,
    mean_abs_diff AnalyzeFreq.demo_dec_arr AnalyzeFreq.demo_exp_arr = Some (Finite mean) /\
    max_diff AnalyzeFreq.demo_dec_arr AnalyzeFreq.demo_exp_arr = Some (Finite mx) /\
    (mean == inject_Z (sum_Z (abs_diffs (flatten AnalyzeFreq.demo_dec_arr)
                                        (flatten AnalyzeFreq.demo_exp_arr)))
             / inject_Z (Z.of_nat (length (flatten AnalyzeFreq.demo_dec_arr))))%Q /\
    (0 <= mean)%Q /\ (mean <= mx)%Q /\ (mx <= 255)%Q /\
    ((mean == 0)%Q <-> AnalyzeFreq.demo_dec_arr = AnalyzeFreq.demo_exp_arr) /\
    ((mx == 0)%Q <-> AnalyzeFreq.demo_dec_arr = AnalyzeFreq.demo_exp_arr).
Proof.
  apply (diff_statistics AnalyzeFreq.demo_dec_arr AnalyzeFreq.demo_exp_arr);
    try reflexivity.
  simpl. discriminate.
Defined.

(** |10-0| + |20-100| + |30-200| + |40-5| + |50-5| + |60-5| = 395 over six
    elements, the largest being 170. *)
Example diff_statistics_demo :
  mean_abs_diff AnalyzeFreq.demo_dec_arr AnalyzeFreq.demo_exp_arr
  = Some (Finite (395 # 6)) /\
  max_diff AnalyzeFreq.demo_dec_arr AnalyzeFreq.demo_exp_arr = Some (Finite 170).
Proof. split; reflexivity. Qed.

End DiffStatistics.

(** ** The saved difference images *)

Section DifferenceImages.
Import NumPy Compare Reduce CompareOutput VisualComparison.

(** One pixel value of an enhanced difference image:
    [np.clip(|d - e| * k, 0, 255).astype(np.uint8)] is [min(k * |d - e|, 255)]. *)
Lemma enhanced_value (k d e : Z) :
  0 <= k ->
  astype_uint8
    (np_clip (fmul (fabs (fsub (of_uint8 d) (of_uint8 e))) (Finite (inject_Z k))) 0 255)
  = Some (Z.min (k * Z.abs (d - e)) 255).
Proof.
  intros Hk.
  change (fmul (fabs (fsub (of_uint8 d) (of_uint8 e))) (Finite (inject_Z k)))
    with (Finite (Qabs (inject_Z d + - inject_Z e) * inject_Z k)).
  set (x := (Qabs (inject_Z d + - inject_Z e) * inject_Z k)%Q).
  assert (Ex : (x == inject_Z (k * Z.abs (d - e)))%Q).
  { unfold x. rewrite Qabs_diff, <- inject_Z_mult. now rewrite Z.mul_comm. }
  assert (Hn : 0 <= k * Z.abs (d - e)) by (apply Z.mul_nonneg_nonneg; lia).
  set (n := k * Z.abs (d - e)) in *.
  assert (X0 : (0 <= x)%Q).
  { rewrite Ex. change 0%Q with (inject_Z 0). now rewrite <- Zle_Qle. }
  unfold np_clip, astype_uint8. f_equal.
  destruct (Z.le_gt_cases n 255) as [Le | Gt].
  - assert (X1 : (x <= 255)%Q).
    { rewrite Ex. change 255%Q with (inject_Z 255). now rewrite <- Zle_Qle. }
    rewrite (Qclamp_id x 0 255 X0 X1). unfold Qtrunc.
    rewrite (proj2 (Qle_bool_iff 0 x) X0), (Qfloor_comp _ _ Ex), Qfloor_Z.
    rewrite Z.mod_small by lia. lia.
  - assert (X1 : (255 < x)%Q).
    { rewrite Ex. change 255%Q with (inject_Z 255). now rewrite <- Zlt_Qlt. }
    unfold Qclamp. rewrite (proj2 (Qle_bool_iff 0 x) X0).
    rewrite (proj2 (Qle_bool_false x 255) X1).
    change (Qtrunc 255 mod 256) with 255. lia.
Qed.

Lemma zip_rows_ext {A B C} (f g : A -> B -> C) (a : array3 A) (b : array3 B) :
  (forall x y, f x y = g x y) ->
  zip_with (zip_with (px_zip f)) a b = zip_with (zip_with (px_zip g)) a b.
Proof.
  intros E. revert b. induction a as [| r a IH]; intros [| r' b]; try reflexivity.
  simpl. f_equal; [| apply IH].
  clear IH. revert r'. induction r as [| [[x y] z] r IH]; intros [| [[x' y'] z'] r'];
    try reflexivity.
  simpl. now rewrite !E, IH.
Qed.

Lemma amap_zip_rows {A B C D} (h : C -> D) (f : A -> B -> C)
    (a : array3 A) (b : array3 B) :
  amap h (zip_with (zip_with (px_zip f)) a b)
  = zip_with (zip_with (px_zip (fun x y => h (f x y)))) a b.
Proof.
  unfold amap. revert b. induction a as [| r a IH]; intros [| r' b]; try reflexivity.
  simpl. f_equal; [| apply IH].
  clear IH. revert r'. induction r as [| [[x y] z] r IH]; intros [| [[x' y'] z'] r'];
    try reflexivity.
  simpl. now rewrite IH.
Qed.

(** The difference images of two arrays of one shape: the difference
    exists, each pixel value of [diff_img] (difference.png,
    difference_aligned.png) is [min(2 * |dec - exp|, 255)] and each pixel
    value of [diff_enhanced] (the third panel of detailed_comparison.png) is
    [min(3 * |dec - exp|, 255)] for the two values at its place; no cast is
    undefined and none wraps around. *)
Theorem difference_images_values (dec_arr exp_arr : array3 Z) :
  shape dec_arr = shape exp_arr ->
  exists diff,
    difference dec_arr exp_arr = Some diff /\
    diff_img diff
    = zip_with (zip_with (px_zip (fun d e => Some (Z.min (2 * Z.abs (d - e)) 255))))
               dec_arr exp_arr /\
    diff_enhanced diff
    = zip_with (zip_with (px_zip (fun d e => Some (Z.min (3 * Z.abs (d - e)) 255))))
               dec_arr exp_arr.
Proof.
  intros S. unfold difference, azip. rewrite S.
  assert (E : shape_eqb (shape exp_arr) (shape exp_arr) = true).
  { destruct (shape exp_arr) as [[h w] c]. unfold shape_eqb.
    now rewrite !Nat.eqb_refl. }
  rewrite E. eexists. split; [reflexivity |]. split.
  - unfold diff_img. rewrite amap_zip_rows. apply zip_rows_ext.
    intros d e. apply (enhanced_value 2). lia.
  - unfold diff_enhanced. rewrite amap_zip_rows. apply zip_rows_ext.
    intros d e. apply (enhanced_value 3). lia.
Qed.

Lemma difference_images_values_witness :
  exists diff,
    difference AnalyzeFreq.demo_dec_arr AnalyzeFreq.demo_exp_arr = Some diff /\
    diff_img diff
    = zip_with (zip_with (px_zip (fun d e => Some (Z.min (2 * Z.abs (d - e)) 255))))
               AnalyzeFreq.demo_dec_arr AnalyzeFreq.demo_exp_arr /\
    diff_enhanced diff
    = zip_with (zip_with (px_zip (fun d e => Some (Z.min (3 * Z.abs (d - e)) 255))))
               AnalyzeFreq.demo_dec_arr AnalyzeFreq.demo_exp_arr.
Proof.
  apply (difference_images_values AnalyzeFreq.demo_dec_arr AnalyzeFreq.demo_exp_arr).
  reflexivity.
Defined.

Example difference_images_demo :
  diff_img <$> difference AnalyzeFreq.demo_dec_arr AnalyzeFreq.demo_exp_arr
  = Some [[(Some 20, Some 160, Some 255); (Some 70, Some 90, Some 110)]].
Proof. vm_compute. reflexivity. Qed.

End DifferenceImages.

(** ** analyze_freq.py: what the rescale produces *)

Section RescaleResult.
Import NumPy AnalyzeFreq.

(** One element of [corrected] when the decoded extremes differ: the clip
    changes nothing and the cast drops the fraction, which leaves
    [exp_min + (v - dec_min) * (exp_max - exp_min) // (dec_max - dec_min)]. *)
Lemma corrected_value (dec_min dec_max exp_min exp_max v : Z) :
  0 <= dec_min -> dec_min <= v -> v <= dec_max -> dec_max <= 255 ->
  dec_min < dec_max ->
  0 <= exp_min -> exp_min <= exp_max -> exp_max <= 255 ->
  astype_uint8 (np_clip (rescale dec_min dec_max exp_min exp_max v) 0 255)
  = Some (exp_min + (v - dec_min) * (exp_max - exp_min) / (dec_max - dec_min)) /\
  exp_min <= exp_min + (v - dec_min) * (exp_max - exp_min) / (dec_max - dec_min)
  <= exp_max.
Proof.
  intros D0 Dv Dv' D1 Dlt E0 Ele E1.
  set (D := dec_max - dec_min). set (t := (v - dec_min) * (exp_max - exp_min)).
  assert (HD : 0 < D) by (unfold D; lia).
  assert (Ht : 0 <= t) by (unfold t; apply Z.mul_nonneg_nonneg; lia).
  assert (Ht' : t <= (exp_max - exp_min) * D).
  { unfold t, D. rewrite Z.mul_comm. apply Z.mul_le_mono_nonneg_l; lia. }
  assert (Hdiv : 0 <= t / D <= exp_max - exp_min).
  { split; [apply Z.div_pos; lia |]. apply Z.div_le_upper_bound; lia. }
  split; [| fold D; fold t; lia].
  rewrite rescale_finite by (rewrite uint8_sub_exact; lia).
  rewrite !uint8_sub_exact by lia. fold D.
  set (q := ((inject_Z v + - inject_Z dec_min) * inject_Z (exp_max - exp_min)
               / inject_Z D + inject_Z exp_min)%Q).
  assert (DQ : ~ (inject_Z D == 0)%Q) by (unfold Qeq; simpl; lia).
  assert (DposQ : (0 < inject_Z D)%Q).
  { change 0%Q with (inject_Z 0). now rewrite <- Zlt_Qlt. }
  assert (Eq : (q == inject_Z (t + exp_min * D) / inject_Z D)%Q).
  { unfold q, t. rewrite inject_Z_plus, !inject_Z_mult, !inject_Z_sub. field. exact DQ. }
  assert (Q0 : (0 <= q)%Q).
  { rewrite Eq. apply Qle_shift_div_l; [exact DposQ |].
    rewrite Qmult_0_l. change 0%Q with (inject_Z 0). rewrite <- Zle_Qle. nia. }
  assert (Q1 : (q <= 255)%Q).
  { rewrite Eq. apply Qle_shift_div_r; [exact DposQ |].
    change 255%Q with (inject_Z 255). rewrite <- inject_Z_mult, <- Zle_Qle. nia. }
  unfold np_clip, astype_uint8. rewrite (Qclamp_id q 0 255 Q0 Q1). f_equal.
  unfold Qtrunc. rewrite (proj2 (Qle_bool_iff 0 q) Q0).
  rewrite (Qfloor_comp _ _ Eq), <- Zdiv_Qdiv, Z.div_add by lia.
  fold t. rewrite Z.mod_small by lia. lia.
Qed.

(** For [uint8] arrays, the decoded one holding two distinct values and the
    expected one at least one element: every element of [corrected] is
    [exp_min + (v - dec_min) * (exp_max - exp_min) // (dec_max - dec_min)]
    for the decoded value [v] at its place; it lies between [exp_min] and
    [exp_max], and both of these occur in [corrected].  The rescaled image
    has exactly the value range of the expected image. *)
Theorem corrected_closed_form (dec_arr exp_arr : array3 Z) (x y : Z) :
  is_uint8_array dec_arr = true ->
  is_uint8_array exp_arr = true ->
  flatten exp_arr <> [] ->
  In x (flatten dec_arr) -> In y (flatten dec_arr) -> x <> y ->
  exists dec_min dec_max exp_min exp_max c,
    amin dec_arr = Some dec_min /\ amax dec_arr = Some dec_max /\
    amin exp_arr = Some exp_min /\ amax exp_arr = Some exp_max /\
    corrected dec_arr exp_arr = Some c /\
    flatten c
    = map (fun v => Some (exp_min + (v - dec_min) * (exp_max - exp_min)
                                      / (dec_max - dec_min)))
          (flatten dec_arr) /\
    Forall (fun o => exists z, o = Some z /\ exp_min <= z <= exp_max) (flatten c) /\
    In (Some exp_min) (flatten c) /\ In (Some exp_max) (flatten c).
Proof.
  intros Ud Ue Hne Hx Hy Hxy.
  assert (Hned : flatten dec_arr <> []) by (intros E; rewrite E in Hx; exact Hx).
  destruct (amin_spec dec_arr Hned) as (dmin & Edmin & Idmin & Ldmin).
  destruct (amax_spec dec_arr Hned) as (dmax & Edmax & Idmax & Ldmax).
  destruct (amin_spec exp_arr Hne) as (emin & Eemin & Iemin & Lemin).
  destruct (amax_spec exp_arr Hne) as (emax & Eemax & Iemax & Lemax).
  pose proof (is_uint8_array_In _ _ Ud Idmin) as Bdmin.
  pose proof (is_uint8_array_In _ _ Ud Idmax) as Bdmax.
  pose proof (is_uint8_array_In _ _ Ue Iemin) as Bemin.
  pose proof (is_uint8_array_In _ _ Ue Iemax) as Bemax.
  pose proof (Ldmin x Hx). pose proof (Ldmin y Hy).
  pose proof (Ldmax x Hx). pose proof (Ldmax y Hy).
  pose proof (Lemin emax Iemax) as Hee.
  assert (Elem : forall v, In v (flatten dec_arr) ->
            astype_uint8 (np_clip (rescale dmin dmax emin emax v) 0 255)
            = Some (emin + (v - dmin) * (emax - emin) / (dmax - dmin)) /\
            emin <= emin + (v - dmin) * (emax - emin) / (dmax - dmin) <= emax).
  { intros v Hv. apply corrected_value; try lia; [apply Ldmin | apply Ldmax]; exact Hv. }
  assert (Efl : flatten (amap (fun v => astype_uint8 (np_clip v 0 255))
                           (amap (rescale dmin dmax emin emax) dec_arr))
                = map (fun v => Some (emin + (v - dmin) * (emax - emin) / (dmax - dmin)))
                      (flatten dec_arr)).
  { rewrite !flatten_amap, map_map. apply map_ext_in. intros v Hv. apply Elem, Hv. }
  exists dmin, dmax, emin, emax.
  eexists. repeat (split; [eassumption |]).
  split; [| split; [exact Efl |]].
  - unfold corrected, corrected_float. rewrite Edmin, Edmax, Eemin, Eemax. reflexivity.
  - rewrite Efl. split; [| split].
    + apply Forall_map, Forall_forall. intros v Hv. simpl.
      eexists. split; [reflexivity |]. apply Elem. now apply list_elem_of_In.
    + apply in_map_iff. exists dmin. split; [| exact Idmin].
      rewrite Z.sub_diag, Z.mul_0_l, Zdiv_0_l, Z.add_0_r. reflexivity.
    + apply in_map_iff. exists dmax. split; [| exact Idmax].
      rewrite Z.mul_comm, Z.div_mul by lia. f_equal. lia.
Qed.

Lemma corrected_closed_form_witness :
  exists dec_min dec_max exp_min exp_max c,
    amin demo_dec_arr = Some dec_min /\ amax demo_dec_arr = Some dec_max /\
    amin demo_exp_arr = Some exp_min /\ amax demo_exp_arr = Some exp_max /\
    corrected demo_dec_arr demo_exp_arr = Some c /\
    flatten c
    = map (fun v => Some (exp_min + (v - dec_min) * (exp_max - exp_min)
                                      / (dec_max - dec_min)))
          (flatten demo_dec_arr) /\
    Forall (fun o => exists z, o = Some z /\ exp_min <= z <= exp_max) (flatten c) /\
    In (Some exp_min) (flatten c) /\ In (Some exp_max) (flatten c).
Proof.
  apply (corrected_closed_form demo_dec_arr demo_exp_arr 10 20).
  - reflexivity.
  - reflexivity.
  - simpl. discriminate.
  - simpl. tauto.
  - simpl. tauto.
  - lia.
Defined.




End RescaleResult.

(** ** visual_comparison.py: even and odd lines *)

Section LinePairs.
Import NumPy Reduce VisualComparison.

Lemma every_other_spec {A} (n : nat) (l : list A) :
  (length l <= n)%nat ->
  length (every_other l) = ((length l + 1) / 2)%nat /\
  forall i, every_other l !! i = l !! (2 * i)%nat.
Proof.
  revert l. induction n as [n IH] using lt_wf_ind. intros l Hl.
  destruct l as [| x [| y rest]].
  - split; [reflexivity | intros i; now rewrite !lookup_nil].
  - split; [reflexivity |]. intros [| i]; [reflexivity |].
    simpl. now rewrite lookup_nil.
  - destruct (IH (length rest) ltac:(simpl in Hl; lia) rest (Nat.le_refl _)) as [L K].
    cbn [every_other length]. split.
    + rewrite L. replace (S (S (length rest)) + 1)%nat with (length rest + 1 + 1 * 2)%nat by lia.
      rewrite Nat.div_add by lia. lia.
    + intros [| i]; [reflexivity |].
      replace (2 * S i)%nat with (S (S (2 * i))) by lia. simpl. apply K.
Qed.

Lemma flatten_length {A} (w : nat) (arr : array3 A) :
  Forall (fun r => length r = w) arr ->
  length (flatten arr) = (3 * length arr * w)%nat.
Proof.
  induction 1 as [| r arr Hr _ IH]; [reflexivity |].
  unfold flatten in *. simpl. rewrite length_app, flatten_row_length, IH, Hr. lia.
Qed.

Lemma every_other_Forall {A} (P : A -> Prop) (l : list A) :
  Forall P l -> Forall P (every_other l).
Proof.
  intros F. apply Forall_forall. intros x Hx.
  apply list_elem_of_lookup_1 in Hx as [i Hi].
  rewrite (proj2 (every_other_spec (length l) l (Nat.le_refl _))) in Hi.
  rewrite Forall_forall in F. apply F. eapply list_elem_of_lookup_2, Hi.
Qed.

Lemma even_odd_counts {A} (dec_arr : array3 A) :
  length (dec_even dec_arr) = ((length dec_arr + 1) / 2)%nat /\
  length (dec_odd dec_arr) = (length dec_arr / 2)%nat.
Proof.
  unfold dec_even, dec_odd.
  destruct (every_other_spec (length dec_arr) dec_arr (Nat.le_refl _)) as [L _].
  destruct (every_other_spec (length (drop 1 dec_arr)) (drop 1 dec_arr) (Nat.le_refl _))
    as [L' _].
  split; [exact L |].
  rewrite L', length_drop. destruct dec_arr as [| r arr]; [reflexivity |].
  simpl. now rewrite Nat.sub_0_r, Nat.add_1_r.
Qed.

(** The even and the odd lines split the image without losing or repeating
    a line: line [i] of [dec_even] is line [2 i] of the image, line [i] of
    [dec_odd] is line [2 i + 1], and there are [(h + 1) // 2] even and
    [h // 2] odd lines. *)
Theorem even_odd_lines {A} (dec_arr : array3 A) :
  length (dec_even dec_arr) = ((length dec_arr + 1) / 2)%nat /\
  length (dec_odd dec_arr) = (length dec_arr / 2)%nat /\
  (forall i, dec_even dec_arr !! i = dec_arr !! (2 * i)%nat) /\
  (forall i, dec_odd dec_arr !! i = dec_arr !! (2 * i + 1)%nat).
Proof.
  destruct (even_odd_counts dec_arr) as [Le Lo].
  split; [exact Le |]. split; [exact Lo |].
  unfold dec_even, dec_odd. split; intros i.
  - apply (every_other_spec (length dec_arr) dec_arr (Nat.le_refl _)).
  - rewrite (proj2 (every_other_spec (length (drop 1 dec_arr)) (drop 1 dec_arr)
                      (Nat.le_refl _))).
    rewrite lookup_drop. f_equal. lia.
Qed.

(** The two flattened sequences of one iteration of the line-pair loop, for
    a rectangular image of [h] lines and [w] columns: the even side has
    [3 * ((h + 1) // 2) * (w - |shift|)] values and the odd side
    [3 * (h // 2) * (w - |shift|)].  They have one length when [h] is even;
    when [h] is odd and [|shift| < w] the lengths differ, and the
    correlation of the two is not defined. *)
Theorem line_pair_lengths {A} (shift : Z) (dec_arr : array3 A) :
  rectangular dec_arr = true ->
  length (flatten (fst (line_pair_slices shift (dec_even dec_arr) (dec_odd dec_arr))))
  = (3 * ((length dec_arr + 1) / 2)
       * (snd (fst (shape dec_arr)) - Z.to_nat (Z.abs shift)))%nat /\
  length (flatten (snd (line_pair_slices shift (dec_even dec_arr) (dec_odd dec_arr))))
  = (3 * (length dec_arr / 2)
       * (snd (fst (shape dec_arr)) - Z.to_nat (Z.abs shift)))%nat /\
  (Nat.even (length dec_arr) = true ->
   length (flatten (fst (line_pair_slices shift (dec_even dec_arr) (dec_odd dec_arr))))
   = length (flatten (snd (line_pair_slices shift (dec_even dec_arr) (dec_odd dec_arr))))) /\
  (Nat.even (length dec_arr) = false ->
   (Z.to_nat (Z.abs shift) < snd (fst (shape dec_arr)))%nat ->
   length (flatten (fst (line_pair_slices shift (dec_even dec_arr) (dec_odd dec_arr))))
   <> length (flatten (snd (line_pair_slices shift (dec_even dec_arr) (dec_odd dec_arr))))).
Proof.
  intros R. apply rectangular_rows in R.
  set (w := snd (fst (shape dec_arr))) in *.
  destruct (even_odd_counts dec_arr) as [Le Lo].
  assert (Fe : Forall (fun r => length r = w) (dec_even dec_arr))
    by (apply every_other_Forall, R).
  assert (Fo : Forall (fun r => length r = w) (dec_odd dec_arr)).
  { apply every_other_Forall. apply Forall_forall. intros r Hr.
    rewrite Forall_forall in R. apply R.
    apply list_elem_of_lookup_1 in Hr as [i Hi]. rewrite lookup_drop in Hi.
    eapply list_elem_of_lookup_2, Hi. }
  set (k := Z.to_nat (Z.abs shift)).
  assert (Lens :
    length (flatten (fst (line_pair_slices shift (dec_even dec_arr) (dec_odd dec_arr))))
    = (3 * length (dec_even dec_arr) * (w - k))%nat /\
    length (flatten (snd (line_pair_slices shift (dec_even dec_arr) (dec_odd dec_arr))))
    = (3 * length (dec_odd dec_arr) * (w - k))%nat).
  { unfold line_pair_slices.
    destruct (shift =? 0) eqn:S0; [| destruct (0 <? shift) eqn:S1]; cbn [fst snd].
    - apply Z.eqb_eq in S0. assert (k = 0%nat) by (unfold k; lia).
      replace (w - k)%nat with w by lia.
      split; apply flatten_length; assumption.
    - apply Z.ltb_lt in S1. assert (Ek : Z.to_nat shift = k) by (unfold k; lia).
      rewrite Ek. split.
      + rewrite (flatten_length (w - k)), length_map; [reflexivity |].
        apply Forall_map. eapply Forall_impl; [exact Fe |].
        intros r Hr. simpl in *. rewrite length_drop. lia.
      + rewrite (flatten_length (w - k)), length_map; [reflexivity |].
        apply Forall_map. eapply Forall_impl; [exact Fo |].
        intros r Hr. simpl in *. rewrite length_take. lia.
    - apply Z.eqb_neq in S0. apply Z.ltb_ge in S1.
      assert (Ek : Z.to_nat (- shift) = k) by (unfold k; lia).
      rewrite Ek. split.
      + rewrite (flatten_length (w - k)), length_map; [reflexivity |].
        apply Forall_map. eapply Forall_impl; [exact Fe |].
        intros r Hr. simpl in *. rewrite length_take. lia.
      + rewrite (flatten_length (w - k)), length_map; [reflexivity |].
        apply Forall_map. eapply Forall_impl; [exact Fo |].
        intros r Hr. simpl in *. rewrite length_drop. lia. }
  destruct Lens as [L1 L2]. rewrite L1, L2, Le, Lo.
  split; [reflexivity |]. split; [reflexivity |].
  set (h := length dec_arr).
  split.
  - intros Ev. apply Nat.even_spec in Ev as [m Hm]. rewrite Hm.
    replace (2 * m + 1)%nat with (1 + m * 2)%nat by lia.
    rewrite Nat.div_add by lia. replace (2 * m)%nat with (0 + m * 2)%nat by lia.
    rewrite Nat.div_add by lia. reflexivity.
  - intros Od Hk. rewrite <- Nat.negb_odd in Od. apply negb_false_iff in Od.
    apply Nat.odd_spec in Od as [m Hm]. rewrite Hm.
    replace (2 * m + 1 + 1)%nat with (0 + (m + 1) * 2)%nat by lia.
    rewrite Nat.div_add by lia.
    replace (2 * m + 1)%nat with (1 + m * 2)%nat by lia.
    rewrite Nat.div_add by lia.
    rewrite (Nat.div_small 1 2), (Nat.div_small 0 2) by lia. nia.
Qed.

Lemma line_pair_lengths_witness :
  length (flatten (fst (line_pair_slices 0 (dec_even Compare.demo_expected)
                                           (dec_odd Compare.demo_expected))))
  = length (flatten (snd (line_pair_slices 0 (dec_even Compare.demo_expected)
                                             (dec_odd Compare.demo_expected)))).
Proof.
  destruct (line_pair_lengths 0 Compare.demo_expected eq_refl) as (_ & _ & E & _).
  apply E. reflexivity.
Defined.

End LinePairs.

(** ** analyze_freq.py: means over regions *)

Section RegionMeans.
Import NumPy Reduce FreqRegions.

Lemma fsum_finite (qs : list Q) (acc : Q) :
  fold_left fadd (map Finite qs) (Finite acc) = Finite (fold_left Qplus qs acc).
Proof.
  revert acc. induction qs as [| q qs IH]; intros acc; [reflexivity |].
  simpl. apply IH.
Qed.

Lemma count_succ (n : nat) :
  (inject_Z (Z.of_nat (S n)) == inject_Z (Z.of_nat n) + 1)%Q.
Proof. rewrite Nat2Z.inj_succ. unfold Z.succ. now rewrite inject_Z_plus. Qed.

Lemma Qsum_bounds (lo hi : Q) (qs : list Q) (acc : Q) :
  Forall (fun q => (lo <= q)%Q /\ (q <= hi)%Q) qs ->
  (acc + inject_Z (Z.of_nat (length qs)) * lo <= fold_left Qplus qs acc)%Q /\
  (fold_left Qplus qs acc <= acc + inject_Z (Z.of_nat (length qs)) * hi)%Q /\
  (qs <> [] -> Forall (fun q => (lo < q)%Q) qs ->
   (acc + inject_Z (Z.of_nat (length qs)) * lo < fold_left Qplus qs acc)%Q).
Proof.
  intros F. revert acc. induction F as [| q qs [Lq Uq] _ IH]; intros acc.
  - cbn [fold_left length]. change (inject_Z (Z.of_nat 0)) with 0%Q.
    split; [lra |]. split; [lra |]. intros N. now elim N.
  - cbn [fold_left length]. rewrite count_succ.
    destruct (IH (acc + q)%Q) as (L & U & S). split; [lra |]. split; [lra |].
    intros _ Fs. inversion Fs as [| ? ? Sq Fs']; subst.
    destruct qs as [| q' qs'].
    + cbn [fold_left length]. change (inject_Z (Z.of_nat 0)) with 0%Q. lra.
    + specialize (S ltac:(discriminate) Fs'). lra.
Qed.

(** The mean of a non-empty sequence of finite values lies between any two
    bounds of the values, strictly above a strict lower bound. *)
Lemma fmean_bounds (lo hi : Q) (qs : list Q) :
  qs <> [] ->
  Forall (fun q => (lo <= q)%Q /\ (q <= hi)%Q) qs ->
  exists m, fmean (map Finite qs) = Finite m /\ (lo <= m)%Q /\ (m <= hi)%Q /\
            (Forall (fun q => (lo < q)%Q) qs -> (lo < m)%Q).
Proof.
  intros N F. destruct (Qsum_bounds lo hi qs 0 F) as (L & U & S).
  set (n := inject_Z (Z.of_nat (length qs))) in *.
  assert (Npos : (0 < n)%Q).
  { unfold n. change 0%Q with (inject_Z 0). rewrite <- Zlt_Qlt.
    destruct qs; [congruence | simpl; lia]. }
  exists (fold_left Qplus qs 0 / n)%Q. split; [| split; [| split]].
  - unfold fmean, fsum. rewrite fsum_finite, length_map. fold n. unfold fdiv.
    destruct (Qeq_bool n 0) eqn:E; [| reflexivity].
    apply Qeq_bool_iff in E. lra.
  - apply Qle_shift_div_l; [exact Npos | lra].
  - apply Qle_shift_div_r; [exact Npos | lra].
  - intros Fs. apply Qlt_shift_div_l; [exact Npos |]. specialize (S N Fs). lra.
Qed.

Lemma fmean_nil : fmean [] = NaN.
Proof. reflexivity. Qed.

Lemma In_concat_flatten (arr : array3 Z) (p : pixel Z) (v : Z) :
  In p (concat arr) -> In v (px_list p) -> In v (flatten arr).
Proof.
  intros Hp Hv. apply in_concat in Hp. destruct Hp as (r & Hr & Hp).
  unfold flatten, flatten_row. apply in_flat_map. exists r. split; [exact Hr |].
  apply in_flat_map. exists p. now split.
Qed.

Lemma pixel_uint8 (arr : array3 Z) (r g b : Z) :
  is_uint8_array arr = true -> In (r, g, b) (concat arr) ->
  0 <= r <= 255 /\ 0 <= g <= 255 /\ 0 <= b <= 255.
Proof.
  intros U Hp.
  repeat split;
    (eapply (is_uint8_array_In arr); [exact U |]);
    (eapply In_concat_flatten; [exact Hp |]); simpl; tauto.
Qed.

(** The channel mean of a pixel, as a rational. *)
Lemma gray_pixel (p : pixel Z) :
  fmean (map of_uint8 (px_list p))
  = Finite ((0 + inject_Z (fst (fst p)) + inject_Z (snd (fst p)) + inject_Z (snd p))
            / inject_Z 3).
Proof. destruct p as [[r g] b]. reflexivity. Qed.

Lemma gray_pixel_bright (p : pixel Z) :
  fgt (fmean (map of_uint8 (px_list p))) (Finite 200) = (600 <? px_sum p).
Proof.
  rewrite gray_pixel. destruct p as [[r g] b]. cbn [fst snd px_sum fgt].
  set (q := ((0 + inject_Z r + inject_Z g + inject_Z b) / inject_Z 3)%Q).
  assert (E : (q == inject_Z (r + g + b) / 3)%Q).
  { unfold q. rewrite !inject_Z_plus. change (inject_Z 3) with 3%Q. field. }
  destruct (Z.ltb_spec 600 (r + g + b)) as [L | L].
  - apply negb_true_iff. apply not_true_is_false. intros H.
    apply Qle_bool_iff in H. rewrite E in H.
    assert (H' : (inject_Z (r + g + b) <= inject_Z 600)%Q).
    { assert (F : (inject_Z (r + g + b) == inject_Z (r + g + b) / 3 * 3)%Q) by field.
      rewrite F. change (inject_Z 600) with (200 * 3)%Q.
      apply Qmult_le_compat_r; [exact H | lra]. }
    rewrite <- Zle_Qle in H'. lia.
  - apply negb_false_iff. apply Qle_bool_iff. rewrite E.
    apply Qle_shift_div_r; [lra |].
    change (200 * 3)%Q with (inject_Z 600). rewrite <- Zle_Qle. lia.
Qed.

Lemma filter_id_map {A} (f : A -> bool) (l : list A) :
  List.filter id (map f l) = map f (List.filter f l).
Proof.
  induction l as [| x l IH]; [reflexivity |].
  cbn [List.filter map]. unfold id at 1.
  destruct (f x) eqn:E; cbn [List.filter map]; rewrite ?E, IH; reflexivity.
Qed.

Lemma masked_map {A B} (g : A -> B) (f : B -> bool) (l : list A) :
  map fst (List.filter snd (zip (map g l) (map f (map g l))))
  = map g (List.filter (fun x => f (g x)) l).
Proof.
  induction l as [| x l IH]; [reflexivity |].
  simpl. destruct (f (g x)); simpl; now rewrite IH.
Qed.

End RegionMeans.

Section BrightPixels.
Import NumPy Reduce FreqRegions.

(** The bright-pixel report of analyze_freq.py ([gray > 200], its count and
    the mean of the selected grey values).  On a [uint8] image the mask
    selects exactly the pixels whose three channels sum to more than 600;
    the report prints their number together with a mean that is a finite
    number above 200 and at most 255, and it prints "no pixels > 200"
    exactly when no pixel has a channel sum above 600, so the mean is never
    taken over an empty selection. *)
Theorem bright_report_spec (arr : array3 Z) :
  is_uint8_array arr = true ->
  match bright_report arr with
  | Some (n, m) =>
      n = length (List.filter (fun p => 600 <? px_sum p) (concat arr)) /\
      (0 < n)%nat /\
      exists q, m = Finite q /\ (200 < q)%Q /\ (q <= 255)%Q
  | None => Forall (fun p => px_sum p <= 600) (concat arr)
  end.
Proof using Type.
  intros U. unfold bright_report, mask_sum, masked, bright_mask, gray.
  unfold array3, row in *. rewrite <- !concat_map.
  set (gv := fun p : pixel Z => fmean (map of_uint8 (px_list p))).
  set (P := fun v : np_float => fgt v (Finite 200)).
  rewrite filter_id_map, !length_map, masked_map.
  assert (Ext : List.filter (fun p => P (gv p)) (concat arr)
                = List.filter (fun p => 600 <? px_sum p) (concat arr)).
  { apply List.filter_ext. intros p. apply gray_pixel_bright. }
  assert (Len : length (List.filter P (map gv (concat arr)))
                = length (List.filter (fun p => 600 <? px_sum p) (concat arr))).
  { rewrite <- Ext. clear. induction (concat arr) as [| x l IH]; [reflexivity |].
    simpl. destruct (P (gv x)); simpl; now rewrite IH. }
  rewrite Len, Ext.
  set (sel := List.filter (fun p => 600 <? px_sum p) (concat arr)) in *.
  destruct (Nat.ltb_spec 0 (length sel)) as [L | L].
  - split; [reflexivity |]. split; [exact L |].
    set (gq := fun p : pixel Z =>
                 ((0 + inject_Z (fst (fst p)) + inject_Z (snd (fst p)) + inject_Z (snd p))
                  / inject_Z 3)%Q).
    assert (M : map gv sel = map Finite (map gq sel)).
    { rewrite map_map. apply map_ext. intros p. apply gray_pixel. }
    rewrite M.
    assert (B : Forall (fun q => (200 <= q)%Q /\ (q <= 255)%Q) (map gq sel) /\
                Forall (fun q => (200 < q)%Q) (map gq sel)).
    { rewrite !Forall_map. split; apply Forall_forall; intros p Hp;
        apply list_elem_of_In in Hp; apply List.filter_In in Hp;
        destruct Hp as [Hp Hb]; destruct p as [[r g] b];
        destruct (pixel_uint8 arr r g b U Hp) as (Hr & Hg & Hbl);
        apply Z.ltb_lt in Hb; cbn [px_sum] in Hb; unfold gq; cbn [fst snd];
        assert (E : ((0 + inject_Z r + inject_Z g + inject_Z b) / inject_Z 3
                     == inject_Z (r + g + b) / 3)%Q)
          by (rewrite !inject_Z_plus; change (inject_Z 3) with 3%Q; field);
        rewrite E.
      - split.
        + apply Qle_shift_div_l; [lra |].
          change (200 * 3)%Q with (inject_Z 600). rewrite <- Zle_Qle. lia.
        + apply Qle_shift_div_r; [lra |].
          change (255 * 3)%Q with (inject_Z 765). rewrite <- Zle_Qle. lia.
      - apply Qlt_shift_div_l; [lra |].
        change (200 * 3)%Q with (inject_Z 600). rewrite <- Zlt_Qlt. lia. }
    destruct B as [B S].
    destruct (fmean_bounds 200 255 (map gq sel)) as (m & Em & _ & Um & Sm).
    + intros N. apply (f_equal (@length Q)) in N. rewrite length_map in N.
      simpl in N. lia.
    + exact B.
    + exists m. split; [exact Em |]. split; [apply Sm, S | exact Um].
  - apply Forall_forall. intros p Hp. apply list_elem_of_In in Hp.
    destruct (Z.ltb_spec 600 (px_sum p)) as [Hb | Hb]; [| exact Hb].
    assert (In p sel) by (apply List.filter_In; split; [exact Hp | now apply Z.ltb_lt]).
    destruct sel; [contradiction | simpl in L; lia].
Qed.

Lemma bright_report_spec_witness :
  match bright_report [[(250, 250, 250); (200, 200, 200); (255, 201, 145)]] with
  | Some (n, m) =>
      n = length (List.filter (fun p => 600 <? px_sum p)
                    (concat [[(250, 250, 250); (200, 200, 200); (255, 201, 145)]])) /\
      (0 < n)%nat /\
      exists q, m = Finite q /\ (200 < q)%Q /\ (q <= 255)%Q
  | None => Forall (fun p => px_sum p <= 600)
              (concat [[(250, 250, 250); (200, 200, 200); (255, 201, 145)]])
  end.
Proof.
  apply (bright_report_spec [[(250, 250, 250); (200, 200, 200); (255, 201, 145)]]).
  reflexivity.
Defined.

End BrightPixels.

Section DarkRegion.
Import NumPy Reduce FreqRegions.

Lemma slice_length {A} (lo hi : nat) (l : list A) :
  length (slice lo hi l) = Nat.min (hi - lo) (length l - lo).
Proof. unfold slice. now rewrite length_take, length_drop. Qed.

Lemma slice_Forall {A} (P : A -> Prop) (lo hi : nat) (l : list A) :
  Forall P l -> Forall P (slice lo hi l).
Proof. intros F. unfold slice. now apply Forall_take, Forall_drop. Qed.

Lemma slice_lookup {A} (lo hi i : nat) (l : list A) :
  (i < hi - lo)%nat -> slice lo hi l !! i = l !! (lo + i)%nat.
Proof. intros L. unfold slice. now rewrite lookup_take_lt, lookup_drop. Qed.

Lemma flatten_Forall {A} (P : A -> Prop) (arr : array3 A) :
  Forall P (flatten arr)
  <-> Forall (fun r => Forall (fun p => Forall P (px_list p)) r) arr.
Proof.
  unfold flatten, flatten_row. rewrite Forall_flat_map.
  split; intros F; eapply Forall_impl; try exact F;
    intros r Hr; cbv beta in *; now apply Forall_flat_map.
Qed.

Lemma dark_region_Forall {A} (P : A -> Prop) (arr : array3 A) :
  Forall P (flatten arr) -> Forall P (flatten (dark_region arr)).
Proof.
  rewrite !flatten_Forall. intros F. unfold dark_region.
  apply Forall_map. apply slice_Forall.
  eapply Forall_impl; [exact F |]. intros r Hr. now apply slice_Forall.
Qed.

Lemma dark_region_rows {A} (arr : array3 A) :
  rectangular arr = true ->
  Forall (fun r => length r = Nat.min 20 (snd (fst (shape arr)) - 10))
         (dark_region arr).
Proof.
  intros R. apply rectangular_rows in R. unfold dark_region.
  apply Forall_map. apply slice_Forall.
  eapply Forall_impl; [exact R |]. intros r Hr. cbv beta in *.
  now rewrite slice_length, Hr.
Qed.

(** The dark-region step of analyze_freq.py ([arr[10:30, 10:30, :]] and its
    mean) on a rectangular [uint8] image of height [h] and width [w].  The
    slice never fails: it is the block of [min(20, h-10)] rows by
    [min(20, w-10)] columns whose pixel [(i, j)] is pixel [(10+i, 10+j)] of
    the image.  Its mean is a number between 0 and 255 when the image is
    more than 10 pixels high and wide, and NaN (the mean of an empty array)
    otherwise; it is never infinite. *)
Theorem dark_region_spec (arr : array3 Z) :
  rectangular arr = true -> is_uint8_array arr = true ->
  length (dark_region arr) = Nat.min 20 (length arr - 10) /\
  Forall (fun r => length r = Nat.min 20 (snd (fst (shape arr)) - 10))
         (dark_region arr) /\
  (forall i j : nat, (i < 20)%nat -> (j < 20)%nat ->
     (dark_region arr !! i) ≫= (fun r => r !! j)
     = (arr !! (10 + i)%nat) ≫= (fun r => r !! (10 + j)%nat)) /\
  match region_mean (dark_region arr) with
  | Finite q =>
      (10 < length arr)%nat /\ (10 < snd (fst (shape arr)))%nat /\
      (0 <= q)%Q /\ (q <= 255)%Q
  | NaN => (length arr <= 10)%nat \/ (snd (fst (shape arr)) <= 10)%nat
  | PosInf | NegInf => False
  end.
Proof using Type.
  intros R U. split; [| split; [| split]].
  - unfold dark_region. now rewrite length_map, slice_length.
  - now apply dark_region_rows.
  - intros i j Li Lj. unfold dark_region.
    change (map (slice 10 30) (slice 10 30 arr))
      with (slice 10 30 <$> slice 10 30 arr).
    unfold array3, row, pixel in *.
    rewrite list_lookup_fmap, slice_lookup by lia.
    destruct (arr !! (10 + i)%nat) as [r |]; [| reflexivity].
    cbn [fmap option_fmap option_map mbind option_bind].
    apply slice_lookup. lia.
  - pose proof (flatten_length _ _ (dark_region_rows arr R)) as Len.
    assert (Lr : length (dark_region arr) = Nat.min 20 (length arr - 10))
      by (unfold dark_region; now rewrite length_map, slice_length).
    rewrite Lr in Len.
    assert (B : Forall (fun v => 0 <= v <= 255) (flatten (dark_region arr))).
    { apply dark_region_Forall. apply Forall_forall. intros v Hv.
      apply (is_uint8_array_In arr v U). now apply list_elem_of_In. }
    unfold region_mean. revert Len B.
    generalize (flatten (dark_region arr)). intros l Len B.
    destruct l as [| v l].
    + cbn [map]. rewrite fmean_nil. cbn [length] in Len. lia.
    + assert (M : map of_uint8 (v :: l) = map Finite (map inject_Z (v :: l)))
        by (rewrite map_map; reflexivity).
      rewrite M.
      destruct (fmean_bounds 0 255 (map inject_Z (v :: l))) as (m & Em & Lm & Um & _).
      * discriminate.
      * apply Forall_map. eapply Forall_impl; [exact B |].
        intros z Hz. cbv beta in *.
        change 0%Q with (inject_Z 0). change 255%Q with (inject_Z 255).
        rewrite <- !Zle_Qle. exact Hz.
      * rewrite Em. cbn [length] in Len. repeat split; try assumption; nia.
Qed.

Lemma dark_region_spec_witness :
  let arr := replicate 12 (replicate 11 (7, 8, 9)) in
  length (dark_region arr) = Nat.min 20 (length arr - 10) /\
  Forall (fun r => length r = Nat.min 20 (snd (fst (shape arr)) - 10))
         (dark_region arr) /\
  (forall i j : nat, (i < 20)%nat -> (j < 20)%nat ->
     (dark_region arr !! i) ≫= (fun r => r !! j)
     = (arr !! (10 + i)%nat) ≫= (fun r => r !! (10 + j)%nat)) /\
  match region_mean (dark_region arr) with
  | Finite q =>
      (10 < length arr)%nat /\ (10 < snd (fst (shape arr)))%nat /\
      (0 <= q)%Q /\ (q <= 255)%Q
  | NaN => (length arr <= 10)%nat \/ (snd (fst (shape arr)) <= 10)%nat
  | PosInf | NegInf => False
  end.
Proof.
  apply (dark_region_spec (replicate 12 (replicate 11 (7, 8, 9)))); reflexivity.
Defined.

(** The dark region of a 12 x 11 image of one colour is its last two rows
    beyond column 10, and its mean is the mean of the three channels. *)
Example dark_region_demo :
  dark_region (replicate 12 (replicate 11 (7, 8, 9))) = [[(7, 8, 9)]; [(7, 8, 9)]] /\
  region_mean (dark_region (replicate 12 (replicate 11 (7, 8, 9)))) = Finite (48 # 6) /\
  region_mean (dark_region Compare.demo_decoded) = NaN.
Proof. repeat split; vm_compute; reflexivity. Qed.

End DarkRegion.
